(** * OneFlow VM core: streams, stream types, logical object ids,
      and the strided index calculators of the broadcast primitives.

    A shallow embedding of
      - oneflow/core/vm/logical_object_id.msg.h
      - oneflow/core/vm/stream.cpp
      - oneflow/core/vm/device_helper_stream_type.h
      - oneflow/core/vm/host_vm_stream_type.h
      - oneflow/core/ep/common/primitive/broadcast_elementwise_unary.h
    together with the properties the design document states about them. *)

From Stdlib Require Import ZArith List Lia Bool.
From coqutil Require Import Byte Word.LittleEndianList.
From stdpp Require Import base option gmap strings list.

Local Open Scope Z_scope.

(* ===================================================================== *)
(** ** Flat messages compared by memcmp: [LogicalObjectId]               *)
(* ===================================================================== *)

Module LogicalObjectId.

(** The [ptr_type] oneof of the message: which of the two [uint64_t]
    fields is the active one (logical_object_id.msg.h, lines 11-13). *)
Inductive ptr_type_case : Type :=
| kRemoteValue
| kLocalValue.

(** A [LogicalObjectId] value: the active field and what it holds. *)
Record t : Type := mk {
  ptr_type : ptr_type_case;
  value    : Z
}.

Definition remote_value (v : Z) : t := mk kRemoteValue v.
Definition local_value  (v : Z) : t := mk kLocalValue v.

(** The payload is a [uint64_t]. *)
Definition uint64_max : Z := 2 ^ 64 - 1.
Definition wf (x : t) : Prop := 0 <= value x <= uint64_max.

(** Modelled from the spec: the flat-message macros ([flat_msg.h]:
    BEGIN_FLAT_MSG, FLAT_MSG_DEFINE_ONEOF and
    FLAT_MSG_DEFINE_COMPARE_OPERATORS_BY_MEMCMP) are not among the
    sources.  The spec fixes that the value is a fixed-layout tagged
    union whose full in-memory representation, tag included, is what
    is compared.  The layout taken here is the 8-byte union, then the
    oneof case as a 4-byte enumerator (fields numbered in declaration
    order from 1), then zeroed padding up to the 8-byte alignment. *)
Definition case_number (c : ptr_type_case) : Z :=
  match c with
  | kRemoteValue => 1
  | kLocalValue  => 2
  end.

Definition bytes_of (x : t) : list byte :=
  le_split 8 (value x) ++ le_split 4 (case_number (ptr_type x)) ++ repeat Byte.x00 4.

(** [memcmp]: the sign of the first differing pair of unsigned bytes. *)
Fixpoint memcmp (a b : list byte) : Z :=
  match a, b with
  | x :: a', y :: b' =>
      if byte.unsigned x <? byte.unsigned y then -1
      else if byte.unsigned y <? byte.unsigned x then 1
      else memcmp a' b'
  | _, _ => 0
  end.

(** The generated comparison operators. *)
Definition eqb (a b : t) : bool := memcmp (bytes_of a) (bytes_of b) =? 0.
Definition neqb (a b : t) : bool := negb (eqb a b).
Definition ltb (a b : t) : bool := memcmp (bytes_of a) (bytes_of b) <? 0.

End LogicalObjectId.

(* ===================================================================== *)
(** ** The VM: devices, streams and stream types                         *)
(* ===================================================================== *)

Module vm.

(** [Maybe<T>]: a value or an error. *)
Inductive Maybe (A : Type) : Type :=
| Ok (a : A)
| Error (msg : string).
Arguments Ok {A} a.
Arguments Error {A} msg.

(** What a call does to the process: it returns, or the process is
    aborted by a failed check, or the call has no defined behaviour
    (a method called on an object that does not exist). *)
Inductive Result (A : Type) : Type :=
| Returned (a : A)
| Aborted (msg : string)
| Undefined.
Arguments Returned {A} a.
Arguments Aborted {A} msg.
Arguments Undefined {A}.

(** Modelled from the spec: the macro [CHECK_JUST] (common/util.h is
    not among the sources).  Resolution of a stream type "fails
    fatally": the value of a successful [Maybe] is passed on, an error
    aborts the process. *)
Definition CHECK_JUST {A} (m : Maybe A) : Result A :=
  match m with
  | Ok a => Returned a
  | Error msg => Aborted msg
  end.

(** Enumerations are integers; their enumerator lists
    (stream_role.h, device_type.pb.h) are not needed here. *)
Definition StreamRole : Type := Z.
Definition DeviceType : Type := Z.

(** [Device] (framework/device.h), as far as stream.cpp uses it. *)
Record Device : Type := mkDevice {
  enum_type : DeviceType;
  device_id : Z                       (* int64_t *)
}.

(** [Symbol<Device>] is a handle to an interned device; the devices
    themselves live in a table shared by every holder of the handle. *)
Definition Symbol : Type := N.
Definition DeviceTable : Type := Symbol -> Device.

(** [Stream*]: the address of a stream object. *)
Abbreviation StreamPtr := N.

(** [ThreadCtx*]: a back reference that the stream does not own. *)
Definition ThreadCtxPtr : Type := N.

(** The status buffer of an instruction.  Its bytes mean something
    only between [InitInstructionStatus] and [DeleteInstructionStatus];
    in between they hold the completion flag of the backend. *)
Inductive InstructionStatusBuffer : Type :=
| Uninitialized
| Status (done : bool)
| Deleted.

Section Streams.
(** [DeviceCtx] (device/device_context.h) and the payload state the
    instructions work on are opaque to this layer.  [StreamTypePtr]
    is [const StreamType*]: the stream types are stateless
    singletons and a stream stores a pointer to one of them. *)
Context {DeviceCtx Operands StreamTypePtr : Type}.

(** The members of [vm::Stream] (stream.cpp, lines 27-31). *)
Record Stream : Type := mkStream {
  thread_ctx_  : option ThreadCtxPtr;
  device_      : Symbol;
  stream_role_ : StreamRole;
  stream_type_ : option StreamTypePtr;
  device_ctx_  : option DeviceCtx            (* std::unique_ptr<DeviceCtx> *)
}.

Definition set_thread_ctx (s : Stream) (p : ThreadCtxPtr) : Stream :=
  mkStream (Some p) (device_ s) (stream_role_ s) (stream_type_ s) (device_ctx_ s).
Definition set_device_ (s : Stream) (d : Symbol) : Stream :=
  mkStream (thread_ctx_ s) d (stream_role_ s) (stream_type_ s) (device_ctx_ s).
Definition set_stream_role_ (s : Stream) (r : StreamRole) : Stream :=
  mkStream (thread_ctx_ s) (device_ s) r (stream_type_ s) (device_ctx_ s).
Definition set_stream_type_ (s : Stream) (t : StreamTypePtr) : Stream :=
  mkStream (thread_ctx_ s) (device_ s) (stream_role_ s) (Some t) (device_ctx_ s).
Definition set_device_ctx_ (s : Stream) (c : option DeviceCtx) : Stream :=
  mkStream (thread_ctx_ s) (device_ s) (stream_role_ s) (stream_type_ s) c.

(** Streams are objects: the heap maps the address of a stream to its
    members.  A [Stream*] is an address, and so is a
    [std::unique_ptr<DeviceCtx>*] obtained from [mut_device_ctx()]:
    it designates the [device_ctx_] member of the stream at that
    address. *)
Local Abbreviation Heap := (gmap N Stream).

(** An instruction: its payload and its status buffer. *)
Record Instruction : Type := mkInstruction {
  payload       : Operands -> Operands;
  status_buffer : InstructionStatusBuffer
}.

(** The interface [StreamType] as device_helper_stream_type.h
    overrides it (lines 18-28).  A method that receives a pointer may
    write through it, so it is a function on the heap; a method that
    receives a status buffer returns the new contents of the buffer,
    or nothing when called outside the buffer's lifecycle. *)
Record StreamType : Type := mkStreamType {
  device_tag : string;
  InitDeviceCtx : StreamPtr -> StreamPtr -> Heap -> Heap;
  InitInstructionStatus :
    Stream -> InstructionStatusBuffer -> option InstructionStatusBuffer;
  DeleteInstructionStatus :
    Stream -> InstructionStatusBuffer -> option InstructionStatusBuffer;
  QueryInstructionStatusDone :
    Stream -> InstructionStatusBuffer -> option bool;
  Compute : Instruction -> Operands -> option (Instruction * Operands)
}.

(** Modelled from the spec: the bodies of the status methods and of
    [Compute] (device_helper_stream_type.cpp is not among the
    sources).  The backend is synchronous: [InitInstructionStatus]
    writes the bookkeeping of an instruction that has not run,
    [Compute] runs the payload to completion and marks the status
    done, [QueryInstructionStatusDone] reads the flag, and
    [DeleteInstructionStatus] releases the buffer of an instruction
    known to be complete.  A call outside the lifecycle
    Init .. Delete has no defined result. *)
Definition sync_InitInstructionStatus
    (_ : Stream) (_ : InstructionStatusBuffer) : option InstructionStatusBuffer :=
  Some (Status false).

Definition sync_DeleteInstructionStatus
    (_ : Stream) (b : InstructionStatusBuffer) : option InstructionStatusBuffer :=
  match b with
  | Status true => Some Deleted
  | _ => None
  end.

Definition sync_QueryInstructionStatusDone
    (_ : Stream) (b : InstructionStatusBuffer) : option bool :=
  match b with
  | Status done => Some done
  | _ => None
  end.

Definition sync_Compute (i : Instruction) (ops : Operands)
    : option (Instruction * Operands) :=
  match status_buffer i with
  | Status _ => Some (mkInstruction (payload i) (Status true), payload i ops)
  | _ => None
  end.

(** [DeviceHelperStreamType] (device_helper_stream_type.h):
    [device_tag] returns "cpu" (line 18) and the body of
    [InitDeviceCtx] is empty (line 20). *)
Definition DeviceHelperStreamType : StreamType := {|
  device_tag := "cpu";
  InitDeviceCtx := fun _device_ctx _stream h => h;
  InitInstructionStatus := sync_InitInstructionStatus;
  DeleteInstructionStatus := sync_DeleteInstructionStatus;
  QueryInstructionStatusDone := sync_QueryInstructionStatusDone;
  Compute := sync_Compute
|}.

(** [HostVmStreamType] (host_vm_stream_type.h), of the older
    [VmStreamType] hierarchy: the same three status methods and
    [Run], which takes a package of chained instructions. *)
Definition kVmStreamTypeId : Z := 2.
Definition VmInstrChainPackage : Type := list Instruction.

Definition InitVmInstructionStatus := sync_InitInstructionStatus.
Definition DeleteVmInstructionStatus := sync_DeleteInstructionStatus.
Definition QueryVmInstructionStatusDone := sync_QueryInstructionStatusDone.

(** Modelled from the spec: [HostVmStreamType::Run]
    (host_vm_stream_type.cpp is not among the sources) executes the
    instructions of the package in order, each to completion. *)
Fixpoint Run (pkg : VmInstrChainPackage) (ops : Operands)
    : option (VmInstrChainPackage * Operands) :=
  match pkg with
  | [] => Some ([], ops)
  | i :: rest =>
      match sync_Compute i ops with
      | Some (i', ops') =>
          match Run rest ops' with
          | Some (rest', ops'') => Some (i' :: rest', ops'')
          | None => None
          end
      | None => None
      end
  end.

(** *** stream.cpp *)
Section StreamCpp.
(** The stream-type objects behind the pointers, and the registry
    [StreamRoleSwitch<GetStreamType>] (stream_get_stream_type.h is
    not among the sources). *)
Variable vtable : StreamTypePtr -> StreamType.
Variable GetStreamType : StreamRole -> DeviceType -> Maybe StreamTypePtr.
Variable devices : DeviceTable.

(** [Stream::__Init__] (lines 26-32). *)
Definition __Init__ (this : StreamPtr) (thread_ctx : ThreadCtxPtr)
    (device : Symbol) (stream_role : StreamRole) (h : Heap) : Result Heap :=
  match h !! this with
  | None => Undefined
  | Some s =>
      let s := set_thread_ctx s thread_ctx in
      let s := set_device_ s device in
      let s := set_stream_role_ s stream_role in
      match CHECK_JUST (GetStreamType stream_role (enum_type (devices device))) with
      | Returned st =>
          let s := set_stream_type_ s st in
          Returned (InitDeviceCtx (vtable st) this this (<[this := s]> h))
      | Aborted msg => Aborted msg
      | Undefined => Undefined
      end
  end.

(** [Stream::device_id] (line 34): [device_->device_id()]. *)
Definition Stream_device_id (this : StreamPtr) (h : Heap) : option Z :=
  match h !! this with
  | Some s => Some (device_id (devices (device_ s)))
  | None => None
  end.

(** [Stream::stream_type] (line 36): [*stream_type_]. *)
Definition Stream_stream_type (this : StreamPtr) (h : Heap) : option StreamType :=
  match h !! this with
  | Some s =>
      match stream_type_ s with
      | Some st => Some (vtable st)
      | None => None
      end
  | None => None
  end.
End StreamCpp.

(** The members of a stream after the four assignments of [__Init__]
    (lines 27-30). *)
Definition bound (s : Stream) (thread_ctx : ThreadCtxPtr) (device : Symbol)
    (stream_role : StreamRole) (st : StreamTypePtr) : Stream :=
  set_stream_type_
    (set_stream_role_ (set_device_ (set_thread_ctx s thread_ctx) device) stream_role) st.

(** [mut_device_ctx()->reset(c)]: a write through the pointer to the
    [device_ctx_] member of the stream at [this]. *)
Definition reset_device_ctx (this : StreamPtr) (c : option DeviceCtx) (h : Heap) : Heap :=
  match h !! this with
  | Some s => <[this := set_device_ctx_ s c]> h
  | None => h
  end.

(** The const member functions of stream.cpp, as calls a client makes
    on an initialized stream. *)
Inductive Accessor : Type :=
| call_device_id
| call_stream_type.

(** A const member function leaves the heap as it is. *)
Definition call (a : Accessor) (this : StreamPtr) (h : Heap) : Heap := h.

Definition calls (l : list Accessor) (this : StreamPtr) (h : Heap) : Heap :=
  fold_left (fun h a => call a this h) l h.

(** A backend whose [InitDeviceCtx] writes nothing but [device_ctx_]
    members: every other member of every stream is as before. *)
Definition forget_device_ctx (s : Stream) : Stream := set_device_ctx_ s None.

Definition writes_only_device_ctx (t : StreamType) : Prop :=
  forall slot stream (h : Heap) a,
    forget_device_ctx <$> (InitDeviceCtx t slot stream h !! a)
    = forget_device_ctx <$> (h !! a).

(** *** The lifecycle of a status buffer *)
Inductive LifecycleOp : Type :=
| Poll                                  (* QueryInstructionStatusDone *)
| Execute.                              (* Compute *)

(** Runs the operations on an instruction of stream [s] and collects
    what the polls return, in order. *)
Fixpoint lifecycle (t : StreamType) (s : Stream) (l : list LifecycleOp)
    (i : Instruction) (ops : Operands)
    : option (list bool * Instruction * Operands) :=
  match l with
  | [] => Some ([], i, ops)
  | Poll :: l' =>
      match QueryInstructionStatusDone t s (status_buffer i) with
      | Some b =>
          match lifecycle t s l' i ops with
          | Some (bs, i', ops') => Some (b :: bs, i', ops')
          | None => None
          end
      | None => None
      end
  | Execute :: l' =>
      match Compute t i ops with
      | Some (i', ops') => lifecycle t s l' i' ops'
      | None => None
      end
  end.

(** [InitInstructionStatus] on the buffer of an instruction. *)
Definition init_status (t : StreamType) (s : Stream) (i : Instruction)
    : option Instruction :=
  match InitInstructionStatus t s (status_buffer i) with
  | Some b => Some (mkInstruction (payload i) b)
  | None => None
  end.

Definition delete_status (t : StreamType) (s : Stream) (i : Instruction)
    : option Instruction :=
  match DeleteInstructionStatus t s (status_buffer i) with
  | Some b => Some (mkInstruction (payload i) b)
  | None => None
  end.
End Streams.

Arguments Stream : clear implicits.
Arguments StreamType : clear implicits.
Abbreviation Heap D P := (gmap N (Stream D P)).
Arguments Instruction : clear implicits.

(** *** The calls a client can make on a stream *)

Section MemberCalls.
Context {DeviceCtx Operands StreamTypePtr : Type}.
Variable vtable : StreamTypePtr -> StreamType DeviceCtx Operands StreamTypePtr.
Variable GetStreamType : StreamRole -> DeviceType -> Maybe StreamTypePtr.
Variable devices : DeviceTable.










(** A backend whose [InitDeviceCtx] does one thing: it stores a device
    context in the slot it is given.  (The slot is a
    [std::unique_ptr<DeviceCtx>] owned by one stream.) *)
Definition writes_given_slot_only (t : StreamType DeviceCtx Operands StreamTypePtr) : Prop :=
  forall (slot stream : StreamPtr) (h : Heap DeviceCtx StreamTypePtr),
    exists c, InitDeviceCtx t slot stream h = reset_device_ctx slot c h.

(** *** Two instructions in flight on two streams *)

Inductive Lane : Type :=
| lane_a
| lane_b.

(** The lifecycle operations addressed to one of the two instructions. *)
Fixpoint lane_ops (k : Lane) (l : list (Lane * LifecycleOp)) : list LifecycleOp :=
  match l with
  | [] => []
  | (lane_a, o) :: l' =>
      match k with lane_a => o :: lane_ops k l' | lane_b => lane_ops k l' end
  | (lane_b, o) :: l' =>
      match k with lane_a => lane_ops k l' | lane_b => o :: lane_ops k l' end
  end.

(** The state of two instructions, each with its own status buffer, that
    work on the same operand memory, and what the polls of each have
    returned so far. *)
Record InFlight : Type := mkInFlight {
  polls_a : list bool;
  polls_b : list bool;
  instr_a : Instruction Operands;
  instr_b : Instruction Operands;
  operands : Operands
}.

(** Runs lifecycle operations on the two instructions in the order
    given, each on the stream type and stream of its lane. *)
Fixpoint interleaved (ta tb : StreamType DeviceCtx Operands StreamTypePtr)
    (sa sb : Stream DeviceCtx StreamTypePtr) (l : list (Lane * LifecycleOp))
    (st : InFlight) : option InFlight :=
  match l with
  | [] => Some st
  | (lane_a, Poll) :: l' =>
      match QueryInstructionStatusDone ta sa (status_buffer (instr_a st)) with
      | Some b =>
          interleaved ta tb sa sb l'
            (mkInFlight (polls_a st ++ [b]) (polls_b st) (instr_a st) (instr_b st)
               (operands st))
      | None => None
      end
  | (lane_b, Poll) :: l' =>
      match QueryInstructionStatusDone tb sb (status_buffer (instr_b st)) with
      | Some b =>
          interleaved ta tb sa sb l'
            (mkInFlight (polls_a st) (polls_b st ++ [b]) (instr_a st) (instr_b st)
               (operands st))
      | None => None
      end
  | (lane_a, Execute) :: l' =>
      match Compute ta (instr_a st) (operands st) with
      | Some (i', ops') =>
          interleaved ta tb sa sb l'
            (mkInFlight (polls_a st) (polls_b st) i' (instr_b st) ops')
      | None => None
      end
  | (lane_b, Execute) :: l' =>
      match Compute tb (instr_b st) (operands st) with
      | Some (i', ops') =>
          interleaved ta tb sa sb l'
            (mkInFlight (polls_a st) (polls_b st) (instr_a st) i' ops')
      | None => None
      end
  end.

(** What the polls of a lifecycle run returned. *)
Definition polls_of
    (r : option (list bool * Instruction Operands * Operands)) : option (list bool) :=
  match r with
  | Some (bs, _, _) => Some bs
  | None => None
  end.
End MemberCalls.

(** *** A small configuration
    One stream type, the device helper, registered for the CPU device
    kind under every role; devices numbered by their handle; device
    contexts and operand memories that are plain integers. *)
Definition kCPU : DeviceType := 1.
Definition kCUDA : DeviceType := 2.

Definition cpu_only_vtable (_ : unit) : StreamType Z Z unit :=
  DeviceHelperStreamType.

Definition cpu_only_registry (_ : StreamRole) (d : DeviceType) : Maybe unit :=
  if d =? kCPU then Ok tt else Error "no stream type for this device".

Definition sample_devices : DeviceTable :=
  fun sym => if (sym <? 10)%N then mkDevice kCPU (Z.of_N sym) else mkDevice kCUDA (Z.of_N sym).

Definition blank_stream : Stream Z unit :=
  mkStream None 0%N 0 None None.

Definition two_streams : Heap Z unit :=
  <[1%N := blank_stream]> (<[2%N := blank_stream]> ∅).




End vm.

(* ===================================================================== *)
(** ** The strided index calculators of the broadcast primitives         *)
(* ===================================================================== *)

Module broadcast_elementwise_unary.

Definition kMaxNumDims : Z := 8.

(** The template parameter [T] is an integer type: a width and a
    signedness.  Arithmetic in [T] is arithmetic on [Z] followed by the
    wrap-around of the type (two's complement for a signed type).  For
    an unsigned type the wrap-around is what C++ defines; for a signed
    type C++ defines the result only when it is in range, where the
    wrap-around is the identity, so a statement about a signed [T] is
    about the code only under hypotheses that keep every result in
    range. *)
Record IntType : Type := mkIntType {
  bits      : Z;
  is_signed : bool
}.

Definition int32_t  : IntType := mkIntType 32 true.
Definition int64_t  : IntType := mkIntType 64 true.
Definition uint32_t : IntType := mkIntType 32 false.
Definition uint64_t : IntType := mkIntType 64 false.

Definition min_val (T : IntType) : Z :=
  if is_signed T then - 2 ^ (bits T - 1) else 0.
Definition max_val (T : IntType) : Z :=
  if is_signed T then 2 ^ (bits T - 1) - 1 else 2 ^ bits T - 1.

Definition wrap (T : IntType) (x : Z) : Z :=
  if is_signed T
  then (x + 2 ^ (bits T - 1)) mod 2 ^ bits T - 2 ^ (bits T - 1)
  else x mod 2 ^ bits T.

Definition representable (T : IntType) (x : Z) : Prop :=
  min_val T <= x <= max_val T.

(** [for (int i = lo; i < lo + count; ++i) body], threading the
    variables the body assigns. *)
Fixpoint for_up {A : Type} (lo count : nat) (body : nat -> A -> A) (a : A) : A :=
  match count with
  | O => a
  | S count' => for_up (S lo) count' body (body lo a)
  end.

(** [for (int i = k - 1; i >= 0; --i) body]. *)
Fixpoint for_down {A : Type} (k : nat) (body : nat -> A -> A) (a : A) : A :=
  match k with
  | O => a
  | S i => for_down i body (body i a)
  end.

(** The product of the elements of a list (in [Z], no wrap-around). *)
Definition product (l : list Z) : Z := fold_right Z.mul 1 l.

Section Calculators.
Variable T : IntType.
Variable N : nat.

Definition addT (a b : Z) : Z := wrap T (a + b).
Definition subT (a b : Z) : Z := wrap T (a - b).
Definition mulT (a b : Z) : Z := wrap T (a * b).
Definition divT (a b : Z) : Z := wrap T (Z.quot a b).

(** [a[i]] for a [const T*]; a read past the end of the array, which
    C++ leaves undefined, reads 0. *)
Definition get (a : list Z) (i : nat) : Z := nth i a 0.

(** *** [IndexToOffsetWithStrideCalculator<T, N>] *)
Record IndexToOffsetWithStrideCalculator : Type := mkIndexToOffset {
  stride_ : list Z                                        (* T stride_[N] *)
}.

(** [InitStrides] (lines 91-94), for [0 <= n <= N]. *)
Definition InitStrides (dims strides : list Z) (n : nat) (stride0 : list Z) : list Z :=
  let s := for_up n (N - n) (fun i s => <[i := 1]> s) stride0 in
  for_down n (fun i s => <[i := get strides i]> s) s.

(** The two constructors (lines 55-62); [stride_] starts out
    indeterminate and [InitStrides] writes each of its [N] cells. *)
Definition IndexToOffsetWithStrideCalculator_n
    (dims strides : list Z) (n : nat) : IndexToOffsetWithStrideCalculator :=
  mkIndexToOffset (InitStrides dims strides n (replicate N 0)).

Definition IndexToOffsetWithStrideCalculator_ctor
    (dims strides : list Z) : IndexToOffsetWithStrideCalculator :=
  IndexToOffsetWithStrideCalculator_n dims strides N.

(** [NdIndexToOffset(const T* index)] (lines 66-74). *)
Definition NdIndexToOffset (c : IndexToOffsetWithStrideCalculator) (index : list Z) : Z :=
  let offset :=
    for_up 0 (N - 1)
      (fun i offset => addT offset (mulT (get index i) (get (stride_ c) i))) 0 in
  addT offset (get index (N - 1)).

(** [NdIndexToOffset(const T* index, int n)] (lines 76-86), for
    [n <= N] (the assertion of line 77). *)
Definition NdIndexToOffset_n (c : IndexToOffsetWithStrideCalculator)
    (index : list Z) (n : nat) : Z :=
  for_up 0 N
    (fun i offset =>
       if (i <? n)%nat
       then addT offset (mulT (get index i) (get (stride_ c) i))
       else offset) 0.

(** Modelled from the spec: [FastIntegerMath<T>]
    (ep/include/primitive/fast_integer_math.h is not among the
    sources).  It is the index arithmetic the spec leaves to the
    kernels: an object built from an operand, whose [divides] is the
    integer division by the operand and whose [mul] is the
    multiplication by it, both in [T]. *)
Record FastIntegerMath : Type := mkFastIntegerMath {
  operand_ : Z
}.
Definition divides (m : FastIntegerMath) (n : Z) : Z := divT n (operand_ m).
Definition mul (m : FastIntegerMath) (n : Z) : Z := mulT n (operand_ m).

(** *** [OffsetToIndexWithStrideCalculator<T, N>] *)
Record OffsetToIndexWithStrideCalculator : Type := mkOffsetToIndex {
  math_helper_ : list FastIntegerMath           (* FastIntegerMath<T> math_helper_[N] *)
}.

Definition helper (mh : list FastIntegerMath) (i : nat) : FastIntegerMath :=
  nth i mh (mkFastIntegerMath 1).

(** [InitFastIntegerMath] (lines 147-157), for [1 <= n <= N]; the
    state of the loops is the local [stride_arr] and the member
    [math_helper_]. *)
Definition InitFastIntegerMath (dims : list Z) (n : nat)
    (mh0 : list FastIntegerMath) : list FastIntegerMath :=
  let st :=
    for_up (n - 1) (N - (n - 1))
      (fun i st => (<[i := 1]> (fst st), <[i := mkFastIntegerMath 1]> (snd st)))
      (replicate N 0, mh0) in
  let st :=
    for_down (n - 1)
      (fun i st =>
         let v := mulT (get dims (i + 1)) (get (fst st) (i + 1)) in
         (<[i := v]> (fst st), <[i := mkFastIntegerMath v]> (snd st)))
      st in
  snd st.

(** The two constructors (lines 104-110). *)
Definition OffsetToIndexWithStrideCalculator_n
    (dims : list Z) (n : nat) : OffsetToIndexWithStrideCalculator :=
  mkOffsetToIndex (InitFastIntegerMath dims n (replicate N (mkFastIntegerMath 1))).

Definition OffsetToIndexWithStrideCalculator_ctor
    (dims : list Z) : OffsetToIndexWithStrideCalculator :=
  OffsetToIndexWithStrideCalculator_n dims N.

(** [OffsetToNdIndex(T offset, T* index)] (lines 114-125): the result
    is the array [index] after the call. *)
Definition OffsetToNdIndex (c : OffsetToIndexWithStrideCalculator)
    (offset : Z) (index : list Z) : list Z :=
  let st :=
    for_up 0 (N - 1)
      (fun i st =>
         let remaining := fst st in
         let idx := divides (helper (math_helper_ c) i) remaining in
         (subT remaining (mul (helper (math_helper_ c) i) idx),
          <[i := idx]> (snd st)))
      (offset, index) in
  <[(N - 1)%nat := fst st]> (snd st).

(** [OffsetToNdIndex(T offset, T* index, int n)] (lines 127-142), for
    [1 <= n <= N]: the loop stops at [i == n - 1]. *)
Definition OffsetToNdIndex_n (c : OffsetToIndexWithStrideCalculator)
    (offset : Z) (index : list Z) (n : nat) : list Z :=
  let st :=
    for_up 0 (Nat.min N (n - 1))
      (fun i st =>
         let remaining := fst st in
         let idx := divides (helper (math_helper_ c) i) remaining in
         (subT remaining (mul (helper (math_helper_ c) i) idx),
          <[i := idx]> (snd st)))
      (offset, index) in
  <[(n - 1)%nat := fst st]> (snd st).
End Calculators.

(** The loop invariant of [InitFastIntegerMath]: the cells [k .. N-1] of
    [stride_arr] and of [math_helper_] hold the products of the extents
    that follow them. *)
Definition filled (dims : list Z) (k : nat) (st : list Z * list FastIntegerMath) : Prop :=
  length (fst st) = length dims /\ length (snd st) = length dims
  /\ forall j, (k <= j < length dims)%nat ->
       nth j (fst st) 0 = product (drop (S j) dims)
       /\ helper (snd st) j = mkFastIntegerMath (product (drop (S j) dims)).

(** Row-major recombination of an index, in [Z]: [index[i]] times the
    product of [dims[i+1 .. N-1]], summed over [i]. *)
Fixpoint row_major_offset (dims index : list Z) : Z :=
  match dims, index with
  | _ :: dims', x :: index' => x * product dims' + row_major_offset dims' index'
  | _, _ => 0
  end.

(** The digits of an offset in the mixed radix [dims], most significant
    first: the closed form of what [OffsetToNdIndex] computes when no
    stride overflows. *)
Fixpoint digits (dims : list Z) (r : Z) : list Z :=
  match dims with
  | [] => []
  | _ :: dims' => r / product dims' :: digits dims' (r mod product dims')
  end.

(** Every cell of [index] is within the extent of its dimension. *)
Definition in_bounds (dims index : list Z) : Prop :=
  Forall2 (fun d x => 0 <= x < d) dims index.

(** *** The shape checks (lines 32-48) *)

(** What a function made of checks does: it returns, or a check fails
    and the process is aborted.
    Modelled from the spec: the macro [CHECK_EQ] (glog; common/util.h is
    not among the sources).  Failures at this layer are "assertions /
    aborts": a [CHECK_EQ] whose operands differ aborts the process and
    reports the two operands. *)
Inductive Checked : Type :=
| Passed
| CheckFailed (lhs rhs : Z).

(** The loop of [CheckInplace] (lines 35-38), from [i] on.  The data
    pointers [src0], [src1] and [dst] are addresses and are only compared
    with each other. *)
Fixpoint CheckInplace_from (i count : nat)
    (src0_dims : list Z) (src0 : N) (src1_dims : list Z) (src1 : N)
    (dst_dims : list Z) (dst : N) : Checked :=
  match count with
  | O => Passed
  | S count' =>
      if (src0 =? dst)%N && negb (get src0_dims i =? get dst_dims i)
      then CheckFailed (get src0_dims i) (get dst_dims i)
      else if (src1 =? dst)%N && negb (get src1_dims i =? get dst_dims i)
      then CheckFailed (get src1_dims i) (get dst_dims i)
      else CheckInplace_from (S i) count' src0_dims src0 src1_dims src1 dst_dims dst
  end.

(** [CheckInplace] (lines 32-39). *)
Definition CheckInplace (num_dims : nat)
    (src0_dims : list Z) (src0 : N) (src1_dims : list Z) (src1 : N)
    (dst_dims : list Z) (dst : N) : Checked :=
  CheckInplace_from 0 num_dims src0_dims src0 src1_dims src1 dst_dims dst.

(** The loop of [IsDimsEquals] (lines 44-46), from [i] on: it returns
    false at the first pair of extents that differ. *)
Fixpoint IsDimsEquals_from (i count : nat) (src0_dims src1_dims : list Z) : bool :=
  match count with
  | O => true
  | S count' =>
      if negb (get src0_dims i =? get src1_dims i) then false
      else IsDimsEquals_from (S i) count' src0_dims src1_dims
  end.

(** [IsDimsEquals] (lines 41-48). *)
Definition IsDimsEquals (num_src0_dims : nat) (src0_dims : list Z)
    (num_src1_dims : nat) (src1_dims : list Z) : bool :=
  if negb (num_src0_dims =? num_src1_dims)%nat then false
  else IsDimsEquals_from 0 num_src1_dims src0_dims src1_dims.

(** *** Closed forms used to state what the calculators compute *)

(** The sum of the products of the cells of two arrays, in [Z]. *)
Fixpoint dot (index strides : list Z) : Z :=
  match index, strides with
  | x :: index', s :: strides' => x * s + dot index' strides'
  | _, _ => 0
  end.

(** The strides of a contiguous row-major array of the given extents:
    the products of the extents that follow each dimension. *)
Fixpoint row_major_strides (dims : list Z) : list Z :=
  match dims with
  | [] => []
  | _ :: dims' => product dims' :: row_major_strides dims'
  end.

(** The loop invariant of [InitFastIntegerMath] for a calculator of
    capacity [N]: the cells [k .. N-1] of [stride_arr] and of
    [math_helper_] hold the products of the extents that follow them
    (1 where no extent follows). *)
Definition filled_upto (N : nat) (dims : list Z) (k : nat)
    (st : list Z * list FastIntegerMath) : Prop :=
  length (fst st) = N /\ length (snd st) = N
  /\ forall j, (k <= j < N)%nat ->
       nth j (fst st) 0 = product (drop (S j) dims)
       /\ helper (snd st) j = mkFastIntegerMath (product (drop (S j) dims)).

End broadcast_elementwise_unary.

(* ===================================================================== *)
(** * Properties                                                         *)
(* ===================================================================== *)

Module LogicalObjectId_facts.
Import LogicalObjectId.

Lemma memcmp_refl (a : list byte) : memcmp a a = 0.
Proof.
  induction a as [|x a IH]; simpl; [reflexivity|].
  rewrite Z.ltb_irrefl. exact IH.
Qed.

Lemma memcmp_zero_eq (a b : list byte) :
  length a = length b -> memcmp a b = 0 -> a = b.
Proof.
  revert b. induction a as [|x a IH]; intros [|y b] Hlen Hcmp;
    simpl in *; try discriminate; [reflexivity|].
  destruct (Z.ltb_spec (byte.unsigned x) (byte.unsigned y)); [discriminate|].
  destruct (Z.ltb_spec (byte.unsigned y) (byte.unsigned x)); [discriminate|].
  f_equal.
  - apply byte.unsigned_inj. lia.
  - apply IH; [congruence | assumption].
Qed.

Lemma length_bytes_of (x : t) : length (bytes_of x) = 16%nat.
Proof.
  unfold bytes_of. rewrite !length_app, !length_le_split, repeat_length.
  reflexivity.
Qed.

Lemma le_split_8_inj (v w : Z) :
  0 <= v <= uint64_max -> 0 <= w <= uint64_max ->
  le_split 8 v = le_split 8 w -> v = w.
Proof.
  unfold uint64_max. intros Hv Hw H.
  apply (f_equal le_combine) in H.
  rewrite !le_combine_split in H.
  change (Z.of_nat 8 * 8) with 64 in H.
  rewrite !Z.mod_small in H by lia. exact H.
Qed.

Lemma case_number_inj (c d : ptr_type_case) :
  le_split 4 (case_number c) = le_split 4 (case_number d) -> c = d.
Proof. destruct c, d; simpl; intros H; first [reflexivity | discriminate H]. Qed.

Lemma bytes_of_inj (a b : t) :
  wf a -> wf b -> bytes_of a = bytes_of b ->
  ptr_type a = ptr_type b /\ value a = value b.
Proof.
  unfold wf, bytes_of. intros Ha Hb H.
  apply app_inj_1 in H as [Hv H]; [|by rewrite !length_le_split].
  apply app_inj_1 in H as [Hc _]; [|by rewrite !length_le_split].
  split; [by apply case_number_inj | by apply le_split_8_inj].
Qed.

(** C1. Two well-formed ids (payload a [uint64_t]) compare equal under
    the memcmp-generated [operator==] exactly when the active field and
    the payload agree; in particular [local_value 5] and
    [remote_value 5] are unequal. *)
Theorem eqb_iff_case_and_payload (a b : t) :
  wf a -> wf b ->
  (eqb a b = true <-> ptr_type a = ptr_type b /\ value a = value b)
  /\ eqb (local_value 5) (remote_value 5) = false.
Proof.
  intros Ha Hb. split; [|vm_compute; reflexivity].
  unfold eqb. rewrite Z.eqb_eq. split.
  - intros H. apply bytes_of_inj; try assumption.
    apply memcmp_zero_eq; [by rewrite !length_bytes_of | exact H].
  - intros [Hc Hv]. destruct a as [ca va], b as [cb vb].
    cbn [ptr_type value] in Hc, Hv. subst. apply memcmp_refl.
Qed.

Lemma eqb_iff_case_and_payload_witness :
  (eqb (local_value 5) (local_value 5) = true <->
     ptr_type (local_value 5) = ptr_type (local_value 5)
     /\ value (local_value 5) = value (local_value 5))
  /\ eqb (local_value 5) (remote_value 5) = false.
Proof.
  apply (eqb_iff_case_and_payload (local_value 5) (local_value 5));
    unfold wf, uint64_max; cbn [value local_value]; lia.
Defined.

End LogicalObjectId_facts.


Module vm_facts.
Import vm.

Section StreamFacts.
Context {DeviceCtx Operands StreamTypePtr : Type}.
Variable vtable : StreamTypePtr -> StreamType DeviceCtx Operands StreamTypePtr.
Variable GetStreamType : StreamRole -> DeviceType -> Maybe StreamTypePtr.

Implicit Types (h : Heap DeviceCtx StreamTypePtr) (s : Stream DeviceCtx StreamTypePtr).
Implicit Types (this : StreamPtr) (devices : DeviceTable).

Lemma Init_registered devices this thread_ctx device role h s st :
  h !! this = Some s ->
  GetStreamType role (enum_type (devices device)) = Ok st ->
  __Init__ vtable GetStreamType devices this thread_ctx device role h
  = Returned (InitDeviceCtx (vtable st) this this
                (<[this := bound s thread_ctx device role st]> h)).
Proof. intros Hs Hreg. unfold __Init__. rewrite Hs, Hreg. reflexivity. Qed.

Lemma Init_unregistered devices this thread_ctx device role h s msg :
  h !! this = Some s ->
  GetStreamType role (enum_type (devices device)) = Error msg ->
  __Init__ vtable GetStreamType devices this thread_ctx device role h = Aborted msg.
Proof. intros Hs Hreg. unfold __Init__. rewrite Hs, Hreg. reflexivity. Qed.

Lemma forget_device_ctx_eq s s' :
  forget_device_ctx s = forget_device_ctx s' ->
  thread_ctx_ s = thread_ctx_ s' /\ device_ s = device_ s'
  /\ stream_role_ s = stream_role_ s' /\ stream_type_ s = stream_type_ s'.
Proof. destruct s, s'. unfold forget_device_ctx, set_device_ctx_. simpl. intros [= -> -> -> ->]. auto. Qed.

(** What a backend that writes only device contexts leaves of a stream. *)
Lemma frame_lookup (t : StreamType DeviceCtx Operands StreamTypePtr) slot stream h a s :
  writes_only_device_ctx t ->
  h !! a = Some s ->
  exists s1, InitDeviceCtx t slot stream h !! a = Some s1
             /\ forget_device_ctx s1 = forget_device_ctx s.
Proof.
  intros Hframe Hs. specialize (Hframe slot stream h a). rewrite Hs in Hframe.
  destruct (InitDeviceCtx t slot stream h !! a) as [s1|]; simpl in Hframe; [|discriminate].
  exists s1. split; [reflexivity | congruence].
Qed.

Lemma calls_id (l : list Accessor) this h : calls l this h = h.
Proof. induction l as [|a l IH]; simpl; [reflexivity | exact IH]. Qed.

Lemma writes_only_device_ctx_DeviceHelper :
  writes_only_device_ctx (@DeviceHelperStreamType DeviceCtx Operands StreamTypePtr).
Proof. intros slot stream h a. reflexivity. Qed.

(** C3. Initialising an existing stream aborts the process when the
    registry has no stream type for the role and the kind of the device,
    with no heap returned and hence no stream type bound; when the pair
    is registered the call returns, having stored the resolved stream
    type and run its [InitDeviceCtx]. *)
Theorem Init_aborts_iff_unregistered devices this thread_ctx device role h s :
  h !! this = Some s ->
  match GetStreamType role (enum_type (devices device)) with
  | Error msg =>
      __Init__ vtable GetStreamType devices this thread_ctx device role h = Aborted msg
  | Ok st =>
      __Init__ vtable GetStreamType devices this thread_ctx device role h
      = Returned (InitDeviceCtx (vtable st) this this
                    (<[this := bound s thread_ctx device role st]> h))
      /\ stream_type_ (bound s thread_ctx device role st) = Some st
  end.
Proof.
  intros Hs.
  destruct (GetStreamType role (enum_type (devices device))) as [st|msg] eqn:Hreg.
  - split; [by eapply Init_registered | reflexivity].
  - by eapply Init_unregistered.
Qed.





(** C5. [device_id()] holds no copy of the id: whatever the device table
    is when the call is made, a stream initialised with a device handle
    answers with the id the table has for that handle at that moment. *)
Theorem device_id_reads_through devices this thread_ctx device role h s st h1 :
  h !! this = Some s ->
  GetStreamType role (enum_type (devices device)) = Ok st ->
  writes_only_device_ctx (vtable st) ->
  __Init__ vtable GetStreamType devices this thread_ctx device role h = Returned h1 ->
  forall (devices' : DeviceTable) (l : list Accessor),
    Stream_device_id devices' this (calls l this h1)
    = Some (device_id (devices' device)).
Proof.
  intros Hs Hreg Hframe Hinit devices' l.
  rewrite (Init_registered _ _ _ _ _ _ _ _ Hs Hreg) in Hinit.
  injection Hinit as <-.
  destruct (frame_lookup (vtable st) this this
              (<[this := bound s thread_ctx device role st]> h) this
              (bound s thread_ctx device role st) Hframe)
    as (s1 & Hs1 & Hsame); [apply lookup_insert_eq|].
  apply forget_device_ctx_eq in Hsame as (_ & Hdev & _).
  rewrite calls_id. unfold Stream_device_id. rewrite Hs1, Hdev. reflexivity.
Qed.

(** *** The status protocol of the synchronous backend *)

Abbreviation DeviceHelper :=
  (@DeviceHelperStreamType DeviceCtx Operands StreamTypePtr).




(** What the polls of an instruction return depends on its own buffer
    alone: neither on the stream nor on the operand memory. *)
Lemma polls_depend_on_buffer_only s s' (l : list LifecycleOp)
    (i : Instruction Operands) (ops ops' : Operands) :
  (fun r => fst (fst r)) <$> lifecycle DeviceHelper s l i ops
  = (fun r => fst (fst r)) <$> lifecycle DeviceHelper s' l i ops'.
Proof.
  revert i ops ops'. induction l as [|[|] l IH]; intros i ops ops'; simpl.
  - reflexivity.
  - unfold sync_QueryInstructionStatusDone.
    destruct (status_buffer i) as [|d|]; try reflexivity.
    specialize (IH i ops ops'). simpl in IH.
    destruct (lifecycle _ s l i ops) as [[[bs1 i1] ops1]|],
             (lifecycle _ s' l i ops') as [[[bs2 i2] ops2]|];
      simpl in *; congruence.
  - unfold sync_Compute. destruct (status_buffer i) as [|d|]; try reflexivity.
    apply IH.
Qed.

(** C2. On the synchronous device-helper stream type, initialising the
    status buffer of an instruction and computing the instruction - with
    any payload, the identity included - leaves the status done: the next
    query returns true, and deleting the status then succeeds.  The same
    holds for the host stream type, whose [Run] takes the instruction as
    a package of one. *)
Theorem sync_compute_then_done s (i : Instruction Operands) (ops : Operands) :
  exists i1 i2 i3,
    init_status DeviceHelper s i = Some i1
    /\ Compute DeviceHelper i1 ops = Some (i2, payload i ops)
    /\ QueryInstructionStatusDone DeviceHelper s (status_buffer i2) = Some true
    /\ delete_status DeviceHelper s i2 = Some i3
    /\ status_buffer i3 = Deleted
    /\ Run [i1] ops = Some ([i2], payload i ops)
    /\ InitVmInstructionStatus s (status_buffer i) = Some (status_buffer i1)
    /\ QueryVmInstructionStatusDone s (status_buffer i2) = Some true
    /\ DeleteVmInstructionStatus s (status_buffer i2) = Some Deleted.
Proof.
  exists (mkInstruction (payload i) (Status false)),
         (mkInstruction (payload i) (Status true)),
         (mkInstruction (payload i) Deleted).
  repeat split.
Qed.


(** C8. [InitDeviceCtx] of the device-helper stream type does nothing:
    the heap after the call is the heap before it, so the stream that
    owns the device-context slot and the stream passed along are both
    exactly as they were. *)
Theorem DeviceHelper_InitDeviceCtx_noop (device_ctx stream : StreamPtr) h :
  let t := @DeviceHelperStreamType DeviceCtx Operands StreamTypePtr in
  InitDeviceCtx t device_ctx stream h = h
  /\ InitDeviceCtx t device_ctx stream h !! device_ctx = h !! device_ctx
  /\ InitDeviceCtx t device_ctx stream h !! stream = h !! stream
  /\ writes_only_device_ctx t.
Proof.
  intros t. split; [reflexivity|]. split; [reflexivity|]. split; [reflexivity|].
  intros slot stream' h' a. reflexivity.
Qed.

(** *** Backends that write the slot they are given *)

Lemma reset_device_ctx_other (a b : StreamPtr) (c : option DeviceCtx) h :
  a <> b -> reset_device_ctx a c h !! b = h !! b.
Proof.
  intros Hab. unfold reset_device_ctx. destruct (h !! a) as [s|]; [|reflexivity].
  by rewrite lookup_insert_ne.
Qed.

Lemma reset_device_ctx_this (a : StreamPtr) (c : option DeviceCtx) h s :
  h !! a = Some s -> reset_device_ctx a c h !! a = Some (set_device_ctx_ s c).
Proof. intros Hs. unfold reset_device_ctx. rewrite Hs. apply lookup_insert_eq. Qed.

Lemma writes_given_slot_only_DeviceHelper : writes_given_slot_only DeviceHelper.
Proof.
  intros slot stream h. simpl. unfold reset_device_ctx.
  destruct (h !! slot) as [s|] eqn:Hs; [|by exists None].
  exists (device_ctx_ s). symmetry. apply insert_id. rewrite Hs. by destruct s.
Qed.

(** [__Init__] on a backend that writes the slot it is given: what the
    stream becomes and that no other stream changes. *)
Lemma Init_own_slot devices this thread_ctx device role h s st :
  h !! this = Some s ->
  GetStreamType role (enum_type (devices device)) = Ok st ->
  writes_given_slot_only (vtable st) ->
  exists h1 c,
    __Init__ vtable GetStreamType devices this thread_ctx device role h = Returned h1
    /\ h1 !! this = Some (set_device_ctx_ (bound s thread_ctx device role st) c)
    /\ forall other, other <> this -> h1 !! other = h !! other.
Proof.
  intros Hs Hreg Hslot.
  destruct (Hslot this this (<[this := bound s thread_ctx device role st]> h)) as [c Hc].
  eexists _, c. split; [by eapply Init_registered|]. rewrite Hc. split.
  - apply reset_device_ctx_this. apply lookup_insert_eq.
  - intros other Hother. rewrite reset_device_ctx_other by congruence.
    by rewrite lookup_insert_ne by congruence.
Qed.

(** In any interleaving of the lifecycle operations of two initialised
    instructions on the synchronous backend, every operation is defined
    and the polls of each instruction are those of its own operations run
    alone, on whatever stream and operand memory. *)
Lemma interleaved_polls sa sb (l : list (Lane * LifecycleOp)) (st : InFlight) da db :
  status_buffer (instr_a st) = Status da ->
  status_buffer (instr_b st) = Status db ->
  exists st',
    interleaved DeviceHelper DeviceHelper sa sb l st = Some st'
    /\ (forall s o, exists pa,
          polls_of (lifecycle DeviceHelper s (lane_ops lane_a l) (instr_a st) o) = Some pa
          /\ polls_a st' = polls_a st ++ pa)
    /\ (forall s o, exists pb,
          polls_of (lifecycle DeviceHelper s (lane_ops lane_b l) (instr_b st) o) = Some pb
          /\ polls_b st' = polls_b st ++ pb).
Proof.
  revert st da db.
  induction l as [|[[|] [|]] l IH]; intros [pa0 pb0 ia ib o0] da db Ha Hb;
    cbn [instr_a instr_b polls_a polls_b operands] in *.
  - eexists. split; [reflexivity|].
    split; intros s o; exists []; simpl; by rewrite app_nil_r.
  - (* a poll on the first instruction *)
    destruct (IH (mkInFlight (pa0 ++ [da]) pb0 ia ib o0) da db Ha Hb)
      as (st' & Hrun & Hpa & Hpb).
    cbn [instr_a instr_b polls_a polls_b operands] in *.
    exists st'. split.
    { cbn [interleaved]. cbn [instr_a instr_b polls_a polls_b operands].
      simpl QueryInstructionStatusDone. unfold sync_QueryInstructionStatusDone.
      rewrite Ha. exact Hrun. }
    split; intros s o.
    + destruct (Hpa s o) as (pa & Hpolls & Happ).
      exists (da :: pa). cbn [lane_ops lifecycle].
      simpl QueryInstructionStatusDone. unfold sync_QueryInstructionStatusDone.
      rewrite Ha.
      destruct (lifecycle DeviceHelper s (lane_ops lane_a l) ia o)
        as [[[bs i'] o']|]; [|discriminate].
      simpl in Hpolls. injection Hpolls as ->. split; [reflexivity|].
      by rewrite Happ, <- app_assoc.
    + exact (Hpb s o).
  - (* the first instruction is computed *)
    destruct (IH (mkInFlight pa0 pb0 (mkInstruction (payload ia) (Status true)) ib
                    (payload ia o0)) true db eq_refl Hb)
      as (st' & Hrun & Hpa & Hpb).
    cbn [instr_a instr_b polls_a polls_b operands] in *.
    exists st'. split.
    { cbn [interleaved]. cbn [instr_a instr_b polls_a polls_b operands].
      simpl Compute. unfold sync_Compute. rewrite Ha. exact Hrun. }
    split; intros s o.
    + cbn [lane_ops lifecycle]. simpl Compute. unfold sync_Compute. rewrite Ha.
      exact (Hpa s (payload ia o)).
    + exact (Hpb s o).
  - (* a poll on the second instruction *)
    destruct (IH (mkInFlight pa0 (pb0 ++ [db]) ia ib o0) da db Ha Hb)
      as (st' & Hrun & Hpa & Hpb).
    cbn [instr_a instr_b polls_a polls_b operands] in *.
    exists st'. split.
    { cbn [interleaved]. cbn [instr_a instr_b polls_a polls_b operands].
      simpl QueryInstructionStatusDone. unfold sync_QueryInstructionStatusDone.
      rewrite Hb. exact Hrun. }
    split; intros s o.
    + exact (Hpa s o).
    + destruct (Hpb s o) as (pb & Hpolls & Happ).
      exists (db :: pb). cbn [lane_ops lifecycle].
      simpl QueryInstructionStatusDone. unfold sync_QueryInstructionStatusDone.
      rewrite Hb.
      destruct (lifecycle DeviceHelper s (lane_ops lane_b l) ib o)
        as [[[bs i'] o']|]; [|discriminate].
      simpl in Hpolls. injection Hpolls as ->. split; [reflexivity|].
      by rewrite Happ, <- app_assoc.
  - (* the second instruction is computed *)
    destruct (IH (mkInFlight pa0 pb0 ia (mkInstruction (payload ib) (Status true))
                    (payload ib o0)) da true Ha eq_refl)
      as (st' & Hrun & Hpa & Hpb).
    cbn [instr_a instr_b polls_a polls_b operands] in *.
    exists st'. split.
    { cbn [interleaved]. cbn [instr_a instr_b polls_a polls_b operands].
      simpl Compute. unfold sync_Compute. rewrite Hb. exact Hrun. }
    split; intros s o.
    + exact (Hpa s o).
    + cbn [lane_ops lifecycle]. simpl Compute. unfold sync_Compute. rewrite Hb.
      exact (Hpb s (payload ib o)).
Qed.

(** C7. Two distinct streams initialised one after the other with the
    same role and devices of the same kind.  Resolution is a function of
    the pair: either both initialisations abort, or both bind the same
    stream type, with the same [device_tag].  The streams stay
    independent: initialising the first leaves the second as it was,
    initialising the second - which stores the second stream's device
    context - leaves the first exactly as its own initialisation made
    it, device context included, and so does any later write through the
    other stream's device-context pointer.  Nor do status buffers
    interfere: in any interleaving of the lifecycle operations of two
    initialised instructions, one per stream, the polls of each return
    what they return when its own operations run alone.  (The backends
    are ones whose [InitDeviceCtx] writes the slot it is given; the
    status part is on the device-helper stream type.) *)
Theorem same_pair_same_dispatch devices (a b : StreamPtr) ta tb da db role h sa sb :
  a <> b ->
  h !! a = Some sa ->
  h !! b = Some sb ->
  enum_type (devices da) = enum_type (devices db) ->
  (forall st, writes_given_slot_only (vtable st)) ->
  match GetStreamType role (enum_type (devices da)) with
  | Error msg =>
      __Init__ vtable GetStreamType devices a ta da role h = Aborted msg
      /\ __Init__ vtable GetStreamType devices b tb db role h = Aborted msg
  | Ok st =>
      exists h1 h2 sa1 sb2,
        __Init__ vtable GetStreamType devices a ta da role h = Returned h1
        /\ __Init__ vtable GetStreamType devices b tb db role h1 = Returned h2
        /\ h1 !! a = Some sa1 /\ stream_type_ sa1 = Some st
        /\ h2 !! b = Some sb2 /\ stream_type_ sb2 = Some st
        /\ Stream_stream_type vtable a h2 = Some (vtable st)
        /\ Stream_stream_type vtable b h2 = Some (vtable st)
        /\ device_tag <$> Stream_stream_type vtable a h2
           = device_tag <$> Stream_stream_type vtable b h2
        /\ h1 !! b = Some sb
        /\ h2 !! a = Some sa1
        /\ forall c,
             reset_device_ctx b c h2 !! a = Some sa1
             /\ reset_device_ctx a c h2 !! b = Some sb2
             /\ device_ctx_ <$> (reset_device_ctx a c h2 !! a) = Some c
  end
  /\ forall (s1 s2 : Stream DeviceCtx StreamTypePtr) (l : list (Lane * LifecycleOp))
       (i1 i2 i1' i2' : Instruction Operands) (ops : Operands),
       init_status DeviceHelper s1 i1 = Some i1' ->
       init_status DeviceHelper s2 i2 = Some i2' ->
       exists st',
         interleaved DeviceHelper DeviceHelper s1 s2 l
           (mkInFlight [] [] i1' i2' ops) = Some st'
         /\ (forall s o,
               polls_of (lifecycle DeviceHelper s (lane_ops lane_a l) i1' o)
               = Some (polls_a st'))
         /\ (forall s o,
               polls_of (lifecycle DeviceHelper s (lane_ops lane_b l) i2' o)
               = Some (polls_b st')).
Proof.
  intros Hab Ha Hb Hkind Hslot. split.
  - destruct (GetStreamType role (enum_type (devices da))) as [st|msg] eqn:Hreg.
    + destruct (Init_own_slot devices a ta da role h sa st Ha Hreg (Hslot st))
        as (h1 & ca & Hinit1 & Ha1 & Hothers1).
      assert (Hb1 : h1 !! b = Some sb) by (rewrite Hothers1 by congruence; exact Hb).
      rewrite Hkind in Hreg.
      destruct (Init_own_slot devices b tb db role h1 sb st Hb1 Hreg (Hslot st))
        as (h2 & cb & Hinit2 & Hb2 & Hothers2).
      assert (Ha2 : h2 !! a = Some (set_device_ctx_ (bound sa ta da role st) ca))
        by (rewrite Hothers2 by congruence; exact Ha1).
      assert (Hta : Stream_stream_type vtable a h2 = Some (vtable st))
        by (unfold Stream_stream_type; by rewrite Ha2).
      assert (Htb : Stream_stream_type vtable b h2 = Some (vtable st))
        by (unfold Stream_stream_type; by rewrite Hb2).
      eexists h1, h2, _, _.
      split; [exact Hinit1|]. split; [exact Hinit2|].
      split; [exact Ha1|]. split; [reflexivity|].
      split; [exact Hb2|]. split; [reflexivity|].
      split; [exact Hta|]. split; [exact Htb|]. split; [by rewrite Hta, Htb|].
      split; [exact Hb1|]. split; [exact Ha2|].
      intros c. rewrite !reset_device_ctx_other by congruence.
      rewrite (reset_device_ctx_this a c h2 _ Ha2).
      split; [exact Ha2|]. split; [exact Hb2 | reflexivity].
    + rewrite Hkind in Hreg.
      split; eapply Init_unregistered; eauto. by rewrite Hkind.
  - intros s1 s2 l i1 i2 i1' i2' ops Hi1 Hi2.
    unfold init_status in Hi1, Hi2. simpl in Hi1, Hi2.
    injection Hi1 as <-. injection Hi2 as <-.
    destruct (interleaved_polls s1 s2 l
                (mkInFlight [] [] (mkInstruction (payload i1) (Status false))
                   (mkInstruction (payload i2) (Status false)) ops)
                false false eq_refl eq_refl) as (st' & Hrun & Hpa & Hpb).
    cbn [instr_a instr_b polls_a polls_b app] in Hpa, Hpb.
    exists st'. split; [exact Hrun|]. split; intros s o.
    + destruct (Hpa s o) as (pa & Hpolls & Happ). by rewrite Hpolls, Happ.
    + destruct (Hpb s o) as (pb & Hpolls & Happ). by rewrite Hpolls, Happ.
Qed.

End StreamFacts.

(** *** The theorems at the small configuration *)

Lemma two_streams_1 : two_streams !! 1%N = Some blank_stream.
Proof. unfold two_streams. apply lookup_insert_eq. Qed.

Lemma two_streams_2 : two_streams !! 2%N = Some blank_stream.
Proof.
  unfold two_streams. rewrite lookup_insert_ne by discriminate.
  apply lookup_insert_eq.
Qed.

Lemma Init_aborts_iff_unregistered_witness :
  (__Init__ cpu_only_vtable cpu_only_registry sample_devices 1%N 0%N 3%N 0 two_streams
   = Returned (<[1%N := bound blank_stream 0%N 3%N 0 tt]> two_streams)
   /\ stream_type_ (bound blank_stream 0%N 3%N 0 tt) = Some tt)
  /\ __Init__ cpu_only_vtable cpu_only_registry sample_devices 1%N 0%N 12%N 0 two_streams
     = Aborted "no stream type for this device".
Proof.
  split.
  - exact (Init_aborts_iff_unregistered cpu_only_vtable cpu_only_registry
             sample_devices 1%N 0%N 3%N 0 two_streams blank_stream two_streams_1).
  - exact (Init_aborts_iff_unregistered cpu_only_vtable cpu_only_registry
             sample_devices 1%N 0%N 12%N 0 two_streams blank_stream two_streams_1).
Defined.




(** The device table after a renumbering. *)
Lemma device_id_reads_through_witness :
  Stream_device_id (fun sym => mkDevice kCPU (Z.of_N sym + 100)) 1%N
    (calls [call_device_id; call_stream_type] 1%N
       (<[1%N := bound blank_stream 0%N 3%N 0 tt]> two_streams))
  = Some 103.
Proof.
  exact (device_id_reads_through cpu_only_vtable cpu_only_registry sample_devices
           1%N 0%N 3%N 0 two_streams blank_stream tt _
           two_streams_1 eq_refl writes_only_device_ctx_DeviceHelper eq_refl
           (fun sym => mkDevice kCPU (Z.of_N sym + 100))
           [call_device_id; call_stream_type]).
Defined.


Lemma same_pair_same_dispatch_witness :
  (exists h1 h2 sa1 sb2,
     __Init__ cpu_only_vtable cpu_only_registry sample_devices 1%N 0%N 3%N 0 two_streams
     = Returned h1
     /\ __Init__ cpu_only_vtable cpu_only_registry sample_devices 2%N 0%N 4%N 0 h1
        = Returned h2
     /\ h1 !! 1%N = Some sa1
     /\ h2 !! 2%N = Some sb2
     /\ device_tag <$> Stream_stream_type cpu_only_vtable 1%N h2
        = device_tag <$> Stream_stream_type cpu_only_vtable 2%N h2
     /\ h1 !! 2%N = Some blank_stream
     /\ h2 !! 1%N = Some sa1
     /\ reset_device_ctx 2%N (Some 42) h2 !! 1%N = Some sa1)
  /\ exists st',
       interleaved (@DeviceHelperStreamType Z Z unit) DeviceHelperStreamType
         blank_stream blank_stream
         [(lane_a, Poll); (lane_b, Execute); (lane_a, Poll); (lane_b, Poll)]
         (mkInFlight [] [] (mkInstruction (fun x => x + 1) (Status false))
            (mkInstruction (fun x => x * 2) (Status false)) 0) = Some st'
       /\ polls_a st' = [false; false]
       /\ polls_b st' = [true].
Proof.
  destruct (same_pair_same_dispatch cpu_only_vtable cpu_only_registry sample_devices
              1%N 2%N 0%N 0%N 3%N 4%N 0 two_streams blank_stream blank_stream
              ltac:(discriminate) two_streams_1 two_streams_2 eq_refl
              (fun _ => writes_given_slot_only_DeviceHelper))
    as [(h1 & h2 & sa1 & sb2 & H1 & H2 & Ha1 & _ & Hb2 & _ & _ & _ & Htag & Hb1 & Ha2 & Hsep)
        Hstatus].
  split.
  - exists h1, h2, sa1, sb2. repeat split; try assumption.
    exact (proj1 (Hsep (Some 42))).
  - destruct (Hstatus blank_stream blank_stream
                [(lane_a, Poll); (lane_b, Execute); (lane_a, Poll); (lane_b, Poll)]
                (mkInstruction (fun x => x + 1) Uninitialized)
                (mkInstruction (fun x => x * 2) Uninitialized)
                _ _ 0 eq_refl eq_refl) as (st' & Hrun & Hpa & Hpb).
    exists st'. split; [exact Hrun|].
    pose proof (Hpa blank_stream 0) as Ea. pose proof (Hpb blank_stream 0) as Eb.
    simpl in Ea, Eb. injection Ea as <-. injection Eb as <-. split; reflexivity.
Defined.

End vm_facts.


Module broadcast_elementwise_unary_facts.
Import broadcast_elementwise_unary.

(** *** Loops *)

Lemma for_up_S {A} (lo count : nat) (body : nat -> A -> A) (a : A) :
  for_up lo (S count) body a = body (lo + count)%nat (for_up lo count body a).
Proof.
  revert lo a. induction count as [|count IH]; intros lo a.
  - simpl. by rewrite Nat.add_0_r.
  - change (for_up lo (S (S count)) body a)
      with (for_up (S lo) (S count) body (body lo a)).
    rewrite IH. simpl. by rewrite Nat.add_succ_r.
Qed.

(** *** Arithmetic in [T] *)

Lemma wrap_small (T : IntType) (x : Z) :
  0 < bits T -> representable T x -> wrap T x = x.
Proof.
  unfold representable, wrap, min_val, max_val. intros Hb Hx.
  assert (H2 : 2 ^ bits T = 2 * 2 ^ (bits T - 1)).
  { rewrite <- Z.pow_succ_r by lia. f_equal. lia. }
  destruct (is_signed T).
  - rewrite Z.mod_small by lia. lia.
  - apply Z.mod_small. lia.
Qed.

Lemma max_val_nonneg (T : IntType) : 0 < bits T -> 0 <= max_val T.
Proof.
  unfold max_val. intros Hb.
  assert (0 < 2 ^ (bits T - 1)) by (apply Z.pow_pos_nonneg; lia).
  assert (0 < 2 ^ bits T) by (apply Z.pow_pos_nonneg; lia).
  destruct (is_signed T); lia.
Qed.

Lemma representable_nonneg (T : IntType) (x : Z) :
  0 < bits T -> 0 <= x <= max_val T -> representable T x.
Proof.
  unfold representable, min_val. intros Hb Hx.
  assert (0 < 2 ^ (bits T - 1)) by (apply Z.pow_pos_nonneg; lia).
  destruct (is_signed T); lia.
Qed.

(** *** Products of positive extents *)

Lemma product_pos (l : list Z) : Forall (fun d => 0 < d) l -> 0 < product l.
Proof.
  induction 1 as [|d l Hd _ IH]; simpl; [lia|].
  change (fold_right Z.mul 1 l) with (product l). nia.
Qed.

Lemma product_drop_le (l : list Z) (k : nat) :
  Forall (fun d => 0 < d) l -> 0 < product (drop k l) <= product l.
Proof.
  intros Hpos. revert k. induction Hpos as [|d l Hd Hl IH]; intros k.
  - rewrite drop_nil. simpl. lia.
  - destruct k as [|k]; simpl.
    + change (fold_right Z.mul 1 l) with (product l).
      pose proof (product_pos l Hl). nia.
    + change (fold_right Z.mul 1 l) with (product l).
      specialize (IH k). nia.
Qed.

Lemma product_drop_S (l : list Z) (k : nat) :
  (k < length l)%nat ->
  product (drop k l) = nth k l 0 * product (drop (S k) l).
Proof.
  intros Hk. destruct (lookup_lt_is_Some_2 l k Hk) as [x Hx].
  rewrite (drop_S l x k Hx). rewrite (nth_lookup_Some l k 0 x Hx). reflexivity.
Qed.

(** *** The closed form: digits in a mixed radix *)

Lemma length_digits (dims : list Z) (r : Z) : length (digits dims r) = length dims.
Proof. revert r. induction dims as [|d dims IH]; intros r; simpl; [|rewrite IH]; reflexivity. Qed.

Lemma digits_in_bounds (dims : list Z) (r : Z) :
  Forall (fun d => 0 < d) dims ->
  0 <= r < product dims ->
  in_bounds dims (digits dims r).
Proof.
  intros Hpos. revert r. induction Hpos as [|d dims Hd Hdims IH]; intros r Hr.
  - constructor.
  - simpl in Hr. change (fold_right Z.mul 1 dims) with (product dims) in Hr.
    pose proof (product_pos dims Hdims) as HP.
    simpl. constructor.
    + split; [apply Z.div_pos; lia|].
      apply Z.div_lt_upper_bound; lia.
    + apply IH. apply Z.mod_pos_bound. exact HP.
Qed.

Lemma digits_recombine (dims : list Z) (r : Z) :
  Forall (fun d => 0 < d) dims ->
  0 <= r < product dims ->
  row_major_offset dims (digits dims r) = r.
Proof.
  intros Hpos. revert r. induction Hpos as [|d dims Hd Hdims IH]; intros r Hr.
  - simpl in *. lia.
  - simpl in Hr. change (fold_right Z.mul 1 dims) with (product dims) in Hr.
    pose proof (product_pos dims Hdims) as HP.
    simpl. rewrite IH by (apply Z.mod_pos_bound; exact HP).
    pose proof (Z.div_mod r (product dims)). lia.
Qed.

(** *** [InitFastIntegerMath] and [OffsetToNdIndex] without overflow *)

Lemma for_down_invariant {A} (P : nat -> A -> Prop) (body : nat -> A -> A) (k : nat) (a : A) :
  P k a ->
  (forall i x, (i < k)%nat -> P (S i) x -> P i (body i x)) ->
  P O (for_down k body a).
Proof.
  revert a. induction k as [|k IH]; intros a Ha Hstep; simpl; [exact Ha|].
  apply IH; [apply Hstep; [lia | exact Ha]|].
  intros i x Hi. apply Hstep. lia.
Qed.

Lemma nth_insert_eq {A} (l : list A) (i : nat) (x d : A) :
  (i < length l)%nat -> nth i (<[i := x]> l) d = x.
Proof. intros Hi. apply nth_lookup_Some. by apply list_lookup_insert_eq. Qed.

Lemma nth_insert_ne {A} (l : list A) (i j : nat) (x d : A) :
  i <> j -> nth j (<[i := x]> l) d = nth j l d.
Proof. intros Hij. by rewrite !nth_lookup, list_lookup_insert_ne. Qed.

Section NoOverflow.
Variable T : IntType.
Hypothesis Hbits : 0 < bits T.
Variable dims : list Z.
Hypothesis Hpos : Forall (fun d => 0 < d) dims.
Hypothesis Hfit : product dims <= max_val T.

Let N : nat := length dims.

(** A suffix product of the extents is computed in [T] without wrapping. *)
Lemma stride_exact (k : nat) :
  (k < N)%nat ->
  mulT T (get dims k) (product (drop (S k) dims)) = product (drop k dims).
Proof.
  intros Hk. unfold mulT, get. rewrite <- product_drop_S by exact Hk.
  apply wrap_small; [exact Hbits|].
  apply representable_nonneg; [exact Hbits|].
  pose proof (product_drop_le dims k Hpos). lia.
Qed.

Lemma InitFastIntegerMath_helper (mh0 : list FastIntegerMath) (j : nat) :
  (1 <= N)%nat -> length mh0 = N -> (j < N)%nat ->
  helper (InitFastIntegerMath T N dims N mh0) j
  = mkFastIntegerMath (product (drop (S j) dims)).
Proof.
  intros HN Hmh Hj. unfold InitFastIntegerMath.
  replace (N - (N - 1))%nat with 1%nat by lia.
  match goal with
  | |- helper (snd (for_down ?k ?body ?a)) j = _ =>
      pose proof (for_down_invariant (filled dims) body k a) as Hinv
  end.
  unfold filled in Hinv. fold N in Hinv.
  destruct Hinv as (_ & _ & Hcells).
  - (* after the first loop *)
    simpl. split; [by rewrite length_insert, length_replicate|].
    split; [by rewrite length_insert|].
    intros i Hi. assert (i = (N - 1)%nat) as -> by lia.
    replace (S (N - 1)) with N by lia.
    replace (drop N dims) with (@nil Z) by (symmetry; apply drop_all).
    unfold helper. rewrite !nth_insert_eq by (rewrite ?length_replicate; lia).
    split; reflexivity.
  - (* one iteration of the second loop *)
    intros i [sa mh] Hi (Hlen_sa & Hlen_mh & Hcells). simpl in *.
    split; [by rewrite length_insert|]. split; [by rewrite length_insert|].
    assert (Hv : mulT T (get dims (i + 1)) (get sa (i + 1))
                 = product (drop (S i) dims)).
    { replace (i + 1)%nat with (S i) by lia. unfold get at 2.
      rewrite (proj1 (Hcells (S i) ltac:(lia))). apply stride_exact. lia. }
    intros j' Hj'. unfold helper. destruct (decide (i = j')) as [<-|Hne].
    + rewrite !nth_insert_eq by lia. rewrite Hv. split; reflexivity.
    + rewrite !nth_insert_ne by exact Hne. apply Hcells. lia.
  - apply Hcells. lia.
Qed.

(** One iteration of [OffsetToNdIndex]: a quotient and the remainder. *)
Lemma digit_step (r d : Z) :
  0 < d -> 0 <= r <= max_val T ->
  divT T r d = r / d
  /\ subT T r (mulT T (r / d) d) = r mod d.
Proof.
  intros Hd Hr. unfold divT, subT, mulT.
  rewrite Z.quot_div_nonneg by lia.
  pose proof (Z.div_mod r d ltac:(lia)) as Hdm.
  pose proof (Z.mod_pos_bound r d Hd) as Hmod.
  assert (0 <= r / d) by (apply Z.div_pos; lia).
  assert (0 <= r / d * d <= r) by nia.
  split.
  - apply wrap_small; [exact Hbits|]. apply representable_nonneg; [exact Hbits|]. nia.
  - rewrite (wrap_small T (r / d * d))
      by first [exact Hbits | apply representable_nonneg; [exact Hbits | lia]].
    replace (r - r / d * d) with (r mod d) by lia.
    apply wrap_small; [exact Hbits|]. apply representable_nonneg; [exact Hbits | lia].
Qed.

Lemma OffsetToNdIndex_loop (mh : list FastIntegerMath) :
  (forall j, (j < N)%nat ->
     helper mh j = mkFastIntegerMath (product (drop (S j) dims))) ->
  forall (cnt lo : nat) (r : Z) (idx : list Z),
    (lo + cnt = N - 1)%nat -> (1 <= N)%nat ->
    0 <= r < product (drop lo dims) ->
    length idx = N ->
    let st :=
      for_up lo cnt
        (fun i st =>
           let remaining := fst st in
           let idx := divides T (helper mh i) remaining in
           (subT T remaining (mul T (helper mh i) idx), <[i := idx]> (snd st)))
        (r, idx) in
    <[(N - 1)%nat := fst st]> (snd st) = take lo idx ++ digits (drop lo dims) r.
Proof.
  intros Hmh. induction cnt as [|cnt IH]; intros lo r idx Hlo HN Hr Hlen.
  - simpl. assert (lo = (N - 1)%nat) as -> by lia.
    rewrite insert_take_drop by lia.
    rewrite (drop_ge idx (S (N - 1))) by lia.
    destruct (lookup_lt_is_Some_2 dims (N - 1)) as [d Hd]; [unfold N in *; lia|].
    rewrite (drop_S dims d (N - 1) Hd).
    rewrite (drop_ge dims (S (N - 1))) by (unfold N; lia).
    simpl. by rewrite Z.div_1_r.
  - cbn [for_up]. cbn zeta. cbn [fst snd].
    assert (Hlt : (lo < N)%nat) by lia.
    rewrite (Hmh lo Hlt). unfold divides, mul. cbn [operand_].
    pose proof (product_drop_le dims (S lo) Hpos) as [Hs _].
    pose proof (product_drop_le dims lo Hpos) as [_ Hle].
    destruct (digit_step r (product (drop (S lo) dims)) Hs ltac:(lia)) as [-> Hrem].
    rewrite Hrem.
    etransitivity.
    { apply (IH (S lo) (r mod product (drop (S lo) dims))
               (<[lo := r / product (drop (S lo) dims)]> idx));
        [lia | exact HN | by apply Z.mod_pos_bound | by rewrite length_insert]. }
    rewrite (take_S_r _ lo (r / product (drop (S lo) dims)))
      by (apply list_lookup_insert_eq; lia).
    rewrite take_insert_ge by lia.
    destruct (lookup_lt_is_Some_2 dims lo) as [d Hd]; [unfold N in *; lia|].
    rewrite (drop_S dims d lo Hd). simpl. by rewrite <- app_assoc.
Qed.

(** Without overflow [OffsetToNdIndex] writes the mixed-radix digits of
    the offset. *)
Lemma OffsetToNdIndex_digits (offset : Z) (index : list Z) :
  (1 <= N)%nat ->
  0 <= offset < product dims ->
  length index = N ->
  OffsetToNdIndex T N (OffsetToIndexWithStrideCalculator_ctor T N dims) offset index
  = digits dims offset.
Proof.
  intros HN Hoff Hlen. unfold OffsetToNdIndex.
  unfold OffsetToIndexWithStrideCalculator_ctor, OffsetToIndexWithStrideCalculator_n.
  cbn [math_helper_].
  pose proof (OffsetToNdIndex_loop
                (InitFastIntegerMath T N dims N (replicate N (mkFastIntegerMath 1)))) as Hloop.
  cbn zeta in Hloop. rewrite (Hloop ltac:(intros j Hj; apply InitFastIntegerMath_helper;
    [exact HN | apply length_replicate | exact Hj]) (N - 1)%nat O offset index);
    [reflexivity | lia | exact HN | exact Hoff | exact Hlen].
Qed.

End NoOverflow.

(** C10, as amended. For positive extents whose product fits in [T]
    (so that no stride wraps around) and an offset below that product,
    [OffsetToNdIndex] writes an index within the extents whose row-major
    recombination is the offset. *)
Theorem OffsetToNdIndex_roundtrip (T : IntType) (dims : list Z)
    (offset : Z) (index : list Z) :
  0 < bits T ->
  (1 <= length dims)%nat ->
  Forall (fun d => 0 < d) dims ->
  product dims <= max_val T ->
  0 <= offset < product dims ->
  length index = length dims ->
  let N := length dims in
  let out :=
    OffsetToNdIndex T N (OffsetToIndexWithStrideCalculator_ctor T N dims) offset index in
  in_bounds dims out /\ row_major_offset dims out = offset.
Proof.
  intros Hbits HN Hpos Hfit Hoff Hlen N out. subst out N.
  rewrite (OffsetToNdIndex_digits T Hbits dims Hpos Hfit offset index HN Hoff Hlen).
  split; [by apply digits_in_bounds | by apply digits_recombine].
Qed.

Lemma OffsetToNdIndex_roundtrip_witness :
  let out :=
    OffsetToNdIndex int32_t 3
      (OffsetToIndexWithStrideCalculator_ctor int32_t 3 [2; 3; 4]) 17 [0; 0; 0] in
  in_bounds [2; 3; 4] out /\ row_major_offset [2; 3; 4] out = 17.
Proof.
  apply (OffsetToNdIndex_roundtrip int32_t [2; 3; 4] 17 [0; 0; 0]).
  - reflexivity.
  - simpl. lia.
  - repeat constructor.
  - vm_compute. discriminate.
  - vm_compute. split; [discriminate | reflexivity].
  - reflexivity.
Defined.

(** C10, as stated, fails when the product of the extents does not fit
    in [T]: with 32-bit unsigned [T] and extents 2, 65537, 65536 the
    stride of the first dimension, 65537 * 65536, wraps around to 65536,
    and offset 65536 is sent to the index (1, 0, 0), whose row-major
    recombination is 4295032832.  (A signed 32-bit [T] wraps to the same
    stride on two's complement hardware.) *)
Lemma OffsetToNdIndex_roundtrip_overflow :
  ~ (forall (T : IntType) (dims : list Z) (offset : Z) (index : list Z),
        0 < bits T ->
        (1 <= length dims)%nat ->
        Forall (fun d => 0 < d) dims ->
        Forall (representable T) dims ->
        representable T offset ->
        0 <= offset < product dims ->
        length index = length dims ->
        let N := length dims in
        let out :=
          OffsetToNdIndex T N (OffsetToIndexWithStrideCalculator_ctor T N dims)
            offset index in
        in_bounds dims out /\ row_major_offset dims out = offset).
Proof.
  intros Hclaim.
  specialize (Hclaim uint32_t [2; 65537; 65536] 65536 [0; 0; 0]).
  assert (Hrep : forall x, 0 <= x <= 65537 -> representable uint32_t x).
  { intros x Hx. unfold representable, min_val, max_val. simpl. lia. }
  destruct Hclaim as [_ Hback].
  - reflexivity.
  - simpl. lia.
  - repeat constructor.
  - repeat constructor; apply Hrep; lia.
  - apply Hrep. lia.
  - vm_compute. split; [discriminate | reflexivity].
  - reflexivity.
  - vm_compute in Hback. discriminate Hback.
Qed.

(** *** The two overloads of [NdIndexToOffset] *)

Lemma for_up_ext {A} (lo count : nat) (f g : nat -> A -> A) (a : A) :
  (forall i x, (lo <= i < lo + count)%nat -> f i x = g i x) ->
  for_up lo count f a = for_up lo count g a.
Proof.
  revert lo a. induction count as [|count IH]; intros lo a Hfg; simpl; [reflexivity|].
  rewrite Hfg by lia. apply IH. intros i x Hi. apply Hfg. lia.
Qed.

(** With [n = N] the two-argument overload is the loop of the
    one-argument overload followed by the term of the last dimension,
    multiplied by its stride. *)
Lemma NdIndexToOffset_n_last (T : IntType) (N : nat)
    (c : IndexToOffsetWithStrideCalculator) (index : list Z) :
  (1 <= N)%nat ->
  NdIndexToOffset_n T N c index N
  = addT T
      (for_up 0 (N - 1)
         (fun i offset => addT T offset (mulT T (get index i) (get (stride_ c) i))) 0)
      (mulT T (get index (N - 1)) (get (stride_ c) (N - 1))).
Proof.
  intros HN. unfold NdIndexToOffset_n.
  replace N with (S (N - 1)) at 1 by lia.
  rewrite for_up_S. simpl.
  destruct (Nat.ltb_spec (N - 1) N) as [_|]; [|lia].
  f_equal. apply for_up_ext. intros i x Hi.
  destruct (Nat.ltb_spec i N) as [_|]; [reflexivity | lia].
Qed.

(** The overloads agree when the last stride is 1. *)
Lemma NdIndexToOffset_agree_unit_stride (T : IntType) (N : nat)
    (c : IndexToOffsetWithStrideCalculator) (index : list Z) :
  0 < bits T ->
  (1 <= N)%nat ->
  get (stride_ c) (N - 1) = 1 ->
  representable T (get index (N - 1)) ->
  NdIndexToOffset_n T N c index N = NdIndexToOffset T N c index.
Proof.
  intros Hbits HN Hone Hrep. rewrite NdIndexToOffset_n_last by exact HN.
  unfold NdIndexToOffset. rewrite Hone. unfold mulT at 2.
  rewrite Z.mul_1_r, wrap_small by assumption. reflexivity.
Qed.

(** C9 fails on the code. With [T = int64_t], [N = 2], extents (2, 3)
    and strides (1, 2), the index (0, 1) is given offset 1 by
    [NdIndexToOffset(index)], which ignores [stride_[1] = 2], and offset
    2 by [NdIndexToOffset(index, 2)]. *)
Theorem NdIndexToOffset_overloads_disagree :
  let c := IndexToOffsetWithStrideCalculator_ctor 2 [2; 3] [1; 2] in
  c = IndexToOffsetWithStrideCalculator_n 2 [2; 3] [1; 2] 2
  /\ stride_ c = [1; 2]
  /\ NdIndexToOffset int64_t 2 c [0; 1] = 1
  /\ NdIndexToOffset_n int64_t 2 c [0; 1] 2 = 2.
Proof. vm_compute. repeat split. Qed.

End broadcast_elementwise_unary_facts.

Module shape_check_facts.
Import broadcast_elementwise_unary.

(** Two arrays agree on their first [n] cells. *)
Lemma take_eq_iff_get (n : nat) (a b : list Z) :
  (n <= length a)%nat -> (n <= length b)%nat ->
  (take n a = take n b <-> forall j, (j < n)%nat -> get a j = get b j).
Proof.
  revert a b. induction n as [|n IH]; intros a b Ha Hb.
  - split; [intros _ j Hj; lia | reflexivity].
  - destruct a as [|x a]; [simpl in Ha; lia|].
    destruct b as [|y b]; [simpl in Hb; lia|].
    simpl in Ha, Hb. specialize (IH a b ltac:(lia) ltac:(lia)). simpl. split.
    + intros [= -> Htl] [|j] Hj; [reflexivity|].
      apply (proj1 IH Htl). lia.
    + intros Hall. f_equal.
      * apply (Hall O). lia.
      * apply IH. intros j Hj. apply (Hall (S j)). lia.
Qed.

Lemma IsDimsEquals_from_true (i count : nat) (a b : list Z) :
  IsDimsEquals_from i count a b = true
  <-> forall j, (j < count)%nat -> get a (i + j) = get b (i + j).
Proof.
  revert i. induction count as [|count IH]; intros i; simpl.
  - split; [intros _ j Hj; lia | reflexivity].
  - destruct (Z.eqb_spec (get a i) (get b i)) as [Heq|Hne]; simpl.
    + rewrite IH. split.
      * intros Hall [|j] Hj; [by rewrite Nat.add_0_r|].
        rewrite Nat.add_succ_r. apply Hall. lia.
      * intros Hall j Hj. specialize (Hall (S j) ltac:(lia)).
        by rewrite Nat.add_succ_r in Hall.
    + split; [discriminate|]. intros Hall. exfalso. apply Hne.
      specialize (Hall O ltac:(lia)). by rewrite Nat.add_0_r in Hall.
Qed.

(** X1. [IsDimsEquals] decides whether two shapes are the same: it
    returns true exactly when the numbers of dimensions are equal and
    the extents agree in every dimension. *)
Theorem IsDimsEquals_iff (n0 : nat) (d0 : list Z) (n1 : nat) (d1 : list Z) :
  (n0 <= length d0)%nat -> (n1 <= length d1)%nat ->
  (IsDimsEquals n0 d0 n1 d1 = true <-> n0 = n1 /\ take n0 d0 = take n1 d1).
Proof.
  intros H0 H1. unfold IsDimsEquals.
  destruct (Nat.eqb_spec n0 n1) as [->|Hne]; simpl.
  - rewrite IsDimsEquals_from_true, take_eq_iff_get by assumption.
    simpl. split; [intros H; split; [reflexivity | exact H] | intros [_ H]; exact H].
  - split; [discriminate | intros [Heq _]; contradiction].
Qed.

Lemma IsDimsEquals_iff_witness :
  IsDimsEquals 3 [2; 3; 4] 3 [2; 3; 4; 9] = true
  <-> 3%nat = 3%nat /\ take 3 [2; 3; 4] = take 3 [2; 3; 4; 9].
Proof.
  apply (IsDimsEquals_iff 3 [2; 3; 4] 3 [2; 3; 4; 9]); simpl; lia.
Defined.

Lemma CheckInplace_from_passed (i count : nat)
    (d0 : list Z) (p0 : N) (d1 : list Z) (p1 : N) (dd : list Z) (pd : N) :
  CheckInplace_from i count d0 p0 d1 p1 dd pd = Passed
  <-> forall j, (j < count)%nat ->
        (p0 = pd -> get d0 (i + j) = get dd (i + j))
        /\ (p1 = pd -> get d1 (i + j) = get dd (i + j)).
Proof.
  revert i. induction count as [|count IH]; intros i; simpl.
  - split; [intros _ j Hj; lia | reflexivity].
  - assert (Hstep :
      (forall j, (j < S count)%nat ->
         (p0 = pd -> get d0 (i + j) = get dd (i + j))
         /\ (p1 = pd -> get d1 (i + j) = get dd (i + j)))
      <-> ((p0 = pd -> get d0 i = get dd i) /\ (p1 = pd -> get d1 i = get dd i))
          /\ forall j, (j < count)%nat ->
               (p0 = pd -> get d0 (S i + j) = get dd (S i + j))
               /\ (p1 = pd -> get d1 (S i + j) = get dd (S i + j))).
    { split.
      - intros Hall. split.
        + specialize (Hall O ltac:(lia)). by rewrite Nat.add_0_r in Hall.
        + intros j Hj. specialize (Hall (S j) ltac:(lia)).
          by rewrite Nat.add_succ_r in Hall.
      - intros [H0 Hall] [|j] Hj; [by rewrite Nat.add_0_r|].
        rewrite Nat.add_succ_r. apply Hall. lia. }
    rewrite Hstep. clear Hstep.
    destruct (N.eqb_spec p0 pd) as [E0|E0], (Z.eqb_spec (get d0 i) (get dd i)) as [F0|F0];
      simpl;
      try (split; [discriminate | intros [[H _] _]; exfalso; apply F0, H, E0]);
      destruct (N.eqb_spec p1 pd) as [E1|E1], (Z.eqb_spec (get d1 i) (get dd i)) as [F1|F1];
      simpl;
      try (split; [discriminate | intros [[_ H] _]; exfalso; apply F1, H, E1]);
      rewrite IH; (split; [intros H; split; [split; intros; first [assumption | contradiction] | exact H]
                          | intros [_ H]; exact H]).
Qed.

(** X2. [CheckInplace] returns without aborting exactly when every
    source that is computed in place (its data pointer is the
    destination pointer) has the extents of the destination in each
    of the [num_dims] dimensions; with no source in place it never
    aborts. *)
Theorem CheckInplace_passed_iff (num_dims : nat)
    (d0 : list Z) (p0 : N) (d1 : list Z) (p1 : N) (dd : list Z) (pd : N) :
  (num_dims <= length d0)%nat -> (num_dims <= length d1)%nat ->
  (num_dims <= length dd)%nat ->
  (CheckInplace num_dims d0 p0 d1 p1 dd pd = Passed
   <-> (p0 = pd -> take num_dims d0 = take num_dims dd)
       /\ (p1 = pd -> take num_dims d1 = take num_dims dd))
  /\ (p0 <> pd -> p1 <> pd -> CheckInplace num_dims d0 p0 d1 p1 dd pd = Passed).
Proof.
  intros H0 H1 Hd.
  assert (Hiff : CheckInplace num_dims d0 p0 d1 p1 dd pd = Passed
     <-> (p0 = pd -> take num_dims d0 = take num_dims dd)
         /\ (p1 = pd -> take num_dims d1 = take num_dims dd)).
  { unfold CheckInplace. rewrite CheckInplace_from_passed. simpl. split.
    - intros Hall. split; intros E; apply take_eq_iff_get; try assumption;
        intros j Hj; destruct (Hall j Hj) as [A B]; auto.
    - intros [A B] j Hj. split; intros E.
      + apply (proj1 (take_eq_iff_get num_dims d0 dd H0 Hd) (A E) j Hj).
      + apply (proj1 (take_eq_iff_get num_dims d1 dd H1 Hd) (B E) j Hj). }
  split; [exact Hiff|].
  intros N0 N1. apply Hiff. split; intros E; contradiction.
Qed.

Lemma CheckInplace_passed_iff_witness :
  CheckInplace 2 [2; 3] 7 [1; 3] 8 [2; 3] 7 = Passed.
Proof.
  apply (proj1 (CheckInplace_passed_iff 2 [2; 3] 7 [1; 3] 8 [2; 3] 7
                  ltac:(simpl; lia) ltac:(simpl; lia) ltac:(simpl; lia))).
  split; [reflexivity | discriminate].
Defined.

(** X11. [CheckInplace] and [IsDimsEquals] agree: the check passes
    exactly when [IsDimsEquals] accepts, against the destination shape,
    the shape of every source whose data pointer is the destination
    pointer. *)
Theorem CheckInplace_iff_IsDimsEquals (num_dims : nat)
    (d0 : list Z) (p0 : N) (d1 : list Z) (p1 : N) (dd : list Z) (pd : N) :
  CheckInplace num_dims d0 p0 d1 p1 dd pd = Passed
  <-> (p0 = pd -> IsDimsEquals num_dims d0 num_dims dd = true)
      /\ (p1 = pd -> IsDimsEquals num_dims d1 num_dims dd = true).
Proof.
  unfold CheckInplace, IsDimsEquals. rewrite Nat.eqb_refl. simpl.
  rewrite CheckInplace_from_passed, !IsDimsEquals_from_true. split.
  - intros Hall. split; intros E j Hj; destruct (Hall j Hj) as [A B]; auto.
  - intros [A B] j Hj. split; intros E; [apply (A E j Hj) | apply (B E j Hj)].
Qed.

End shape_check_facts.

Module calculator_facts.
Import broadcast_elementwise_unary broadcast_elementwise_unary_facts.

Lemma for_up_invariant {A} (P : nat -> A -> Prop) (body : nat -> A -> A)
    (lo count : nat) (a : A) :
  P lo a ->
  (forall i x, (lo <= i < lo + count)%nat -> P i x -> P (S i) (body i x)) ->
  P (lo + count)%nat (for_up lo count body a).
Proof.
  revert lo a. induction count as [|count IH]; intros lo a Ha Hstep; simpl.
  - by rewrite Nat.add_0_r.
  - rewrite Nat.add_succ_r.
    apply (IH (S lo)); [apply Hstep; [lia | exact Ha]|].
    intros i x Hi. apply Hstep. lia.
Qed.

Lemma get_insert_eq (l : list Z) (i : nat) (x : Z) :
  (i < length l)%nat -> get (<[i := x]> l) i = x.
Proof. apply nth_insert_eq. Qed.

Lemma get_insert_ne (l : list Z) (i j : nat) (x : Z) :
  i <> j -> get (<[i := x]> l) j = get l j.
Proof. apply nth_insert_ne. Qed.

(** *** [InitStrides] *)

Lemma InitStrides_written (N : nat) (dims strides : list Z) (n : nat) (stride0 : list Z) :
  (n <= N)%nat -> length stride0 = N ->
  let s := InitStrides N dims strides n stride0 in
  length s = N
  /\ (forall i, (i < n)%nat -> get s i = get strides i)
  /\ (forall i, (n <= i < N)%nat -> get s i = 1).
Proof.
  intros Hn Hlen s. subst s. unfold InitStrides.
  pose proof (for_up_invariant
                (fun i s => length s = N /\ forall j, (n <= j < i)%nat -> get s j = 1)
                (fun i s => <[i := 1]> s) n (N - n) stride0) as Hfirst.
  destruct Hfirst as [Hlen1 Hones].
  { split; [exact Hlen | intros j Hj; lia]. }
  { intros i x Hi [Hx Hc]. split; [by rewrite length_insert|].
    intros j Hj. destruct (decide (i = j)) as [<-|Hne].
    - apply get_insert_eq. lia.
    - rewrite get_insert_ne by exact Hne. apply Hc. lia. }
  replace (n + (N - n))%nat with N in Hones by lia.
  pose proof (for_down_invariant
                (fun i s => length s = N
                            /\ (forall j, (i <= j < n)%nat -> get s j = get strides j)
                            /\ (forall j, (n <= j < N)%nat -> get s j = 1))
                (fun i s => <[i := get strides i]> s) n
                (for_up n (N - n) (fun i s => <[i := 1]> s) stride0)) as Hsecond.
  destruct Hsecond as (Hlen2 & Hgiven & Hones2).
  { split; [exact Hlen1|]. split; [intros j Hj; lia | exact Hones]. }
  { intros i x Hi (Hx & Hg & Ho). split; [by rewrite length_insert|]. split.
    - intros j Hj. destruct (decide (i = j)) as [<-|Hne].
      + apply get_insert_eq. lia.
      + rewrite get_insert_ne by exact Hne. apply Hg. lia.
    - intros j Hj. rewrite get_insert_ne by lia. by apply Ho. }
  split; [exact Hlen2|]. split; [|exact Hones2].
  intros i Hi. apply Hgiven. lia.
Qed.

(** X3. Whatever the array [stride_] held before and whatever the
    extents are, [InitStrides(dims, strides, n)] with [n <= N] leaves in
    [stride_] the first [n] given strides followed by 1 in each of the
    remaining [N - n] cells. *)
Theorem InitStrides_cells (N : nat) (dims strides : list Z) (n : nat) (stride0 : list Z) :
  (n <= N)%nat -> (n <= length strides)%nat -> length stride0 = N ->
  InitStrides N dims strides n stride0 = take n strides ++ replicate (N - n) 1.
Proof.
  intros Hn Hs Hlen.
  destruct (InitStrides_written N dims strides n stride0 Hn Hlen)
    as (Hl & Hgiven & Hones).
  assert (Hlt : length (take n strides) = n) by (rewrite length_take; lia).
  apply (nth_ext _ _ 0 0).
  - rewrite length_app, Hlt, length_replicate. lia.
  - intros i Hi. rewrite Hl in Hi. destruct (decide (i < n)%nat) as [Hin|Hout].
    + rewrite app_nth1 by lia. rewrite nth_firstn.
      destruct (Nat.ltb_spec i n) as [_|]; [|lia]. by apply Hgiven.
    + rewrite app_nth2 by lia. rewrite Hlt.
      rewrite (nth_lookup_Some (replicate (N - n) 1) (i - n) 0 1)
        by (apply lookup_replicate_2; lia).
      apply Hones. lia.
Qed.

Lemma InitStrides_cells_witness :
  InitStrides 4 [2; 3] [5; 7] 2 [11; 12; 13; 14] = take 2 [5; 7] ++ replicate (4 - 2) 1.
Proof.
  apply (InitStrides_cells 4 [2; 3] [5; 7] 2 [11; 12; 13; 14]);
    [lia | simpl; lia | reflexivity].
Defined.

(** *** Arithmetic in [T] is arithmetic modulo [2 ^ bits] *)

Lemma wrap_add_wrap (T : IntType) (a b : Z) :
  0 < bits T -> wrap T (wrap T a + wrap T b) = wrap T (a + b).
Proof.
  intros Hb. unfold wrap.
  assert (Hm : 0 < 2 ^ bits T) by (apply Z.pow_pos_nonneg; lia).
  destruct (is_signed T).
  - f_equal.
    set (h := 2 ^ (bits T - 1)). set (m := 2 ^ bits T) in *.
    replace ((a + h) mod m - h + ((b + h) mod m - h) + h)
      with ((a + h) mod m + ((b + h) mod m - h)) by lia.
    rewrite Z.add_mod_idemp_l by lia.
    replace (a + h + ((b + h) mod m - h)) with ((b + h) mod m + a) by lia.
    rewrite Z.add_mod_idemp_l by lia. f_equal. lia.
  - rewrite <- Z.add_mod by lia. reflexivity.
Qed.

Lemma wrap_add_wrap_r (T : IntType) (a b : Z) :
  0 < bits T -> wrap T (a + wrap T b) = wrap T (a + b).
Proof.
  intros Hb. unfold wrap.
  assert (Hm : 0 < 2 ^ bits T) by (apply Z.pow_pos_nonneg; lia).
  destruct (is_signed T).
  - f_equal.
    set (h := 2 ^ (bits T - 1)). set (m := 2 ^ bits T) in *.
    replace (a + ((b + h) mod m - h) + h) with ((b + h) mod m + a) by lia.
    rewrite Z.add_mod_idemp_l by lia. f_equal. lia.
  - rewrite Z.add_mod_idemp_r by lia. reflexivity.
Qed.

Lemma wrap_0 (T : IntType) : 0 < bits T -> wrap T 0 = 0.
Proof.
  intros Hb. apply wrap_small; [exact Hb|].
  apply representable_nonneg; [exact Hb|].
  pose proof (max_val_nonneg T Hb). lia.
Qed.

Lemma dot_take_S (k : nat) (a b : list Z) :
  (k < length a)%nat -> (k < length b)%nat ->
  dot (take (S k) a) (take (S k) b) = dot (take k a) (take k b) + get a k * get b k.
Proof.
  revert a b. induction k as [|k IH]; intros [|x a] [|y b] Ha Hb;
    simpl in Ha, Hb; try lia.
  - simpl. unfold get. simpl. lia.
  - change (dot (take (S (S k)) (x :: a)) (take (S (S k)) (y :: b)))
      with (x * y + dot (take (S k) a) (take (S k) b)).
    rewrite IH by lia. simpl. unfold get. simpl. lia.
Qed.

(** *** [NdIndexToOffset] *)

Lemma NdIndexToOffset_n_loop (T : IntType) (index strides : list Z) (n k : nat) :
  0 < bits T ->
  (n <= length index)%nat -> (n <= length strides)%nat ->
  for_up 0 k
    (fun i offset =>
       if (i <? n)%nat
       then addT T offset (mulT T (get index i) (get strides i))
       else offset) 0
  = wrap T (dot (take (Nat.min k n) index) (take (Nat.min k n) strides)).
Proof.
  intros Hb Hi Hs. induction k as [|k IH].
  - simpl. symmetry. by apply wrap_0.
  - rewrite for_up_S, IH. cbn [Nat.add]. cbv beta.
    destruct (Nat.ltb_spec k n) as [Hlt|Hge].
    + rewrite (Nat.min_l k n), (Nat.min_l (S k) n) by lia.
      rewrite dot_take_S by lia. unfold addT, mulT. by apply wrap_add_wrap.
    + rewrite (Nat.min_r k n), (Nat.min_r (S k) n) by lia. reflexivity.
Qed.

Lemma NdIndexToOffset_n_sum (T : IntType) (N : nat)
    (c : IndexToOffsetWithStrideCalculator) (index : list Z) (n : nat) :
  0 < bits T ->
  (n <= N)%nat -> (n <= length index)%nat -> (n <= length (stride_ c))%nat ->
  NdIndexToOffset_n T N c index n
  = wrap T (dot (take n index) (take n (stride_ c))).
Proof.
  intros Hb Hn Hi Hs. unfold NdIndexToOffset_n.
  rewrite NdIndexToOffset_n_loop by assumption.
  by rewrite Nat.min_r by lia.
Qed.

(** X4. On a calculator constructed for [n <= N] dimensions,
    [NdIndexToOffset(index, n)] is the sum of the products
    [index[i] * strides[i]] over the first [n] dimensions; neither the
    extents nor the cells of [index] from [n] on matter.  The sum is
    exact when no product and no partial sum leaves the range of [T]
    (for a signed [T] C++ defines nothing else); for an unsigned [T] no
    narrower than [int] it is the sum modulo [2 ^ bits], the
    wrap-arounds of the intermediate results cancelling. *)
Theorem NdIndexToOffset_n_dot (T : IntType) (N : nat)
    (dims strides index : list Z) (n : nat) :
  0 < bits T ->
  (n <= N)%nat -> (n <= length index)%nat -> (n <= length strides)%nat ->
  let c := IndexToOffsetWithStrideCalculator_n N dims strides n in
  ((forall k, (k < n)%nat ->
      representable T (get index k * get strides k)
      /\ representable T (dot (take (S k) index) (take (S k) strides))) ->
   NdIndexToOffset_n T N c index n = dot (take n index) (take n strides))
  /\ (is_signed T = false -> 32 <= bits T ->
      NdIndexToOffset_n T N c index n
      = dot (take n index) (take n strides) mod 2 ^ bits T).
Proof.
  intros Hb Hn Hi Hs c.
  assert (Hsum : NdIndexToOffset_n T N c index n
                 = wrap T (dot (take n index) (take n strides))).
  { destruct (InitStrides_written N dims strides n (replicate N 0) Hn
                (length_replicate N 0)) as (Hl & Hgiven & _).
    subst c. rewrite NdIndexToOffset_n_sum;
      unfold IndexToOffsetWithStrideCalculator_n; cbn [stride_];
      [| exact Hb | exact Hn | exact Hi | lia].
    do 2 f_equal. apply (nth_ext _ _ 0 0).
    - rewrite !length_take. lia.
    - intros i Hi'. rewrite length_take in Hi'. rewrite !nth_firstn.
      destruct (Nat.ltb_spec i n) as [Hlt|]; [by apply Hgiven | reflexivity]. }
  rewrite Hsum. split.
  - intros Hfits. destruct n as [|n].
    + simpl. by apply wrap_0.
    + apply wrap_small; [exact Hb|]. apply (Hfits n). lia.
  - intros Hunsigned _. unfold wrap. by rewrite Hunsigned.
Qed.

Lemma NdIndexToOffset_n_dot_witness :
  NdIndexToOffset_n int32_t 4 (IndexToOffsetWithStrideCalculator_n 4 [2; 3] [3; 1] 2)
    [1; 2; 9; 9] 2
  = dot (take 2 [1; 2; 9; 9]) (take 2 [3; 1])
  /\ NdIndexToOffset_n uint32_t 2 (IndexToOffsetWithStrideCalculator_n 2 [2; 3] [65536; 1] 2)
       [65536; 7] 2
     = dot (take 2 [65536; 7]) (take 2 [65536; 1]) mod 2 ^ bits uint32_t.
Proof.
  split.
  - refine (proj1 (NdIndexToOffset_n_dot int32_t 4 [2; 3] [3; 1] [1; 2; 9; 9] 2
                     _ _ _ _) _);
      [reflexivity | lia | simpl; lia | simpl; lia |].
    intros k Hk. destruct k as [|[|k]]; [| |lia];
      vm_compute; repeat split; discriminate.
  - refine (proj2 (NdIndexToOffset_n_dot uint32_t 2 [2; 3] [65536; 1] [65536; 7] 2
                     _ _ _ _) _ _);
      [reflexivity | lia | simpl; lia | simpl; lia | reflexivity | simpl; lia].
Defined.

(** X5. A calculator constructed for fewer than [N] dimensions has 1 in
    the last cell of [stride_], and on it the two overloads of
    [NdIndexToOffset] agree. *)
Theorem NdIndexToOffset_agree_padded (T : IntType) (N : nat)
    (dims strides index : list Z) (n : nat) :
  0 < bits T ->
  (n < N)%nat ->
  representable T (get index (N - 1)) ->
  let c := IndexToOffsetWithStrideCalculator_n N dims strides n in
  NdIndexToOffset_n T N c index N = NdIndexToOffset T N c index.
Proof.
  intros Hb Hn Hrep c. apply NdIndexToOffset_agree_unit_stride;
    [exact Hb | lia | | exact Hrep].
  subst c. unfold IndexToOffsetWithStrideCalculator_n. cbn [stride_].
  destruct (InitStrides_written N dims strides n (replicate N 0) ltac:(lia)
              (length_replicate N 0)) as (_ & _ & Hones).
  apply Hones. lia.
Qed.

Lemma NdIndexToOffset_agree_padded_witness :
  let c := IndexToOffsetWithStrideCalculator_n 3 [2; 3] [5; 2] 2 in
  NdIndexToOffset_n int64_t 3 c [1; 1; 4] 3 = NdIndexToOffset int64_t 3 c [1; 1; 4].
Proof.
  apply (NdIndexToOffset_agree_padded int64_t 3 [2; 3] [5; 2] [1; 1; 4] 2);
    [reflexivity | lia | vm_compute; split; discriminate].
Defined.

(** *** Row-major strides: the two calculators are inverse *)

Lemma length_row_major_strides (dims : list Z) :
  length (row_major_strides dims) = length dims.
Proof. induction dims as [|d dims IH]; simpl; [|rewrite IH]; reflexivity. Qed.

Lemma get_row_major_strides (dims : list Z) (i : nat) :
  (i < length dims)%nat ->
  get (row_major_strides dims) i = product (drop (S i) dims).
Proof.
  revert i. induction dims as [|d dims IH]; intros [|i] Hi; simpl in Hi; try lia.
  - reflexivity.
  - apply (IH i). lia.
Qed.

Lemma dot_row_major (dims index : list Z) :
  dot index (row_major_strides dims) = row_major_offset dims index.
Proof.
  revert index. induction dims as [|d dims IH]; intros [|x index]; simpl;
    try reflexivity.
  by rewrite IH.
Qed.

(** Constructed for all [N] dimensions, the calculator holds the given
    strides. *)
Lemma stride_ctor (N : nat) (dims strides : list Z) :
  length strides = N ->
  stride_ (IndexToOffsetWithStrideCalculator_ctor N dims strides) = strides.
Proof.
  intros Hlen. unfold IndexToOffsetWithStrideCalculator_ctor,
    IndexToOffsetWithStrideCalculator_n. cbn [stride_].
  destruct (InitStrides_written N dims strides N (replicate N 0) ltac:(lia)
              (length_replicate N 0)) as (Hl & Hgiven & _).
  apply (nth_ext _ _ 0 0); [lia|].
  intros i Hi. apply Hgiven. lia.
Qed.

Lemma in_bounds_length (dims index : list Z) :
  in_bounds dims index -> length index = length dims.
Proof. intros H. symmetry. exact (Forall2_length _ _ _ H). Qed.

Lemma in_bounds_positive (dims index : list Z) :
  in_bounds dims index -> Forall (fun d => 0 < d) dims.
Proof. induction 1; constructor; [lia | assumption]. Qed.

Lemma row_major_offset_range (dims index : list Z) :
  in_bounds dims index -> 0 <= row_major_offset dims index < product dims.
Proof.
  induction 1 as [|d x dims index Hx _ IH]; simpl; [lia|].
  change (fold_right Z.mul 1 dims) with (product dims). nia.
Qed.

Lemma digits_row_major (dims index : list Z) :
  in_bounds dims index -> digits dims (row_major_offset dims index) = index.
Proof.
  induction 1 as [|d x dims index Hx Hrest IH]; simpl; [reflexivity|].
  pose proof (row_major_offset_range dims index Hrest) as Hr.
  assert (HP : 0 < product dims) by lia.
  rewrite Z.add_comm, Z.div_add by lia.
  rewrite Z.mod_add by lia.
  rewrite Z.div_small, Z.mod_small by lia. simpl. by rewrite IH.
Qed.

Lemma digits_le (dims : list Z) (r : Z) :
  Forall (fun d => 0 < d) dims -> 0 <= r ->
  Forall (fun x => 0 <= x <= r) (digits dims r).
Proof.
  intros Hpos. revert r. induction Hpos as [|d dims Hd Hdims IH]; intros r Hr; simpl.
  - constructor.
  - pose proof (product_pos dims Hdims) as HP.
    pose proof (Z.mod_pos_bound r (product dims) HP) as Hmod.
    pose proof (Z.div_mod r (product dims) ltac:(lia)) as Hdm.
    assert (0 <= r / product dims) by (apply Z.div_pos; lia).
    constructor; [nia|].
    eapply Forall_impl; [apply IH; lia|].
    intros x Hx. simpl in Hx. nia.
Qed.

(** The offset the index-to-offset calculator gives an index, for
    row-major strides and without overflow. *)
Lemma NdIndexToOffset_n_row_major (T : IntType) (dims index : list Z) :
  0 < bits T ->
  length index = length dims ->
  0 <= row_major_offset dims index <= max_val T ->
  let N := length dims in
  NdIndexToOffset_n T N
    (IndexToOffsetWithStrideCalculator_ctor N dims (row_major_strides dims)) index N
  = row_major_offset dims index.
Proof.
  intros Hb Hlen Hr N.
  rewrite NdIndexToOffset_n_sum;
    rewrite ?stride_ctor by apply length_row_major_strides;
    rewrite ?length_row_major_strides; try (subst N; lia); try exact Hb.
  rewrite !take_ge by (rewrite ?length_row_major_strides; subst N; lia).
  rewrite dot_row_major.
  apply wrap_small; [exact Hb | by apply representable_nonneg].
Qed.

(** X6. From an index to its offset and back.  For extents whose
    product fits in [T] and an index within the extents, the offset that
    [NdIndexToOffset(index, N)] computes with the row-major strides of
    the extents is sent back to the same index by [OffsetToNdIndex]. *)
Theorem index_offset_index (T : IntType) (dims index buf : list Z) :
  0 < bits T ->
  (1 <= length dims)%nat ->
  in_bounds dims index ->
  product dims <= max_val T ->
  length buf = length dims ->
  let N := length dims in
  let to_offset := IndexToOffsetWithStrideCalculator_ctor N dims (row_major_strides dims) in
  let to_index := OffsetToIndexWithStrideCalculator_ctor T N dims in
  OffsetToNdIndex T N to_index (NdIndexToOffset_n T N to_offset index N) buf = index.
Proof.
  intros Hb HN Hin Hfit Hbuf N to_offset to_index. subst to_offset to_index N.
  pose proof (row_major_offset_range dims index Hin) as Hr.
  rewrite NdIndexToOffset_n_row_major;
    [| exact Hb | by apply in_bounds_length | lia].
  rewrite (OffsetToNdIndex_digits T Hb dims (in_bounds_positive _ _ Hin) Hfit _ buf
             HN Hr Hbuf).
  by apply digits_row_major.
Qed.

Lemma index_offset_index_witness :
  let to_offset := IndexToOffsetWithStrideCalculator_ctor 3 [2; 3; 4] (row_major_strides [2; 3; 4]) in
  let to_index := OffsetToIndexWithStrideCalculator_ctor int32_t 3 [2; 3; 4] in
  OffsetToNdIndex int32_t 3 to_index
    (NdIndexToOffset_n int32_t 3 to_offset [1; 2; 3] 3) [0; 0; 0] = [1; 2; 3].
Proof.
  apply (index_offset_index int32_t [2; 3; 4] [1; 2; 3] [0; 0; 0]).
  - reflexivity.
  - simpl. lia.
  - repeat constructor; lia.
  - vm_compute. discriminate.
  - reflexivity.
Defined.

(** X7. From an offset to its index and back.  For positive extents
    whose product fits in [T] and an offset below the product, both
    overloads of [NdIndexToOffset], with the row-major strides of the
    extents, give the index written by [OffsetToNdIndex] the offset it
    came from. *)
Theorem offset_index_offset (T : IntType) (dims : list Z) (offset : Z) (buf : list Z) :
  0 < bits T ->
  (1 <= length dims)%nat ->
  Forall (fun d => 0 < d) dims ->
  product dims <= max_val T ->
  0 <= offset < product dims ->
  length buf = length dims ->
  let N := length dims in
  let to_offset := IndexToOffsetWithStrideCalculator_ctor N dims (row_major_strides dims) in
  let to_index := OffsetToIndexWithStrideCalculator_ctor T N dims in
  NdIndexToOffset_n T N to_offset (OffsetToNdIndex T N to_index offset buf) N = offset
  /\ NdIndexToOffset T N to_offset (OffsetToNdIndex T N to_index offset buf) = offset.
Proof.
  intros Hb HN Hpos Hfit Hoff Hbuf N to_offset to_index. subst to_offset to_index N.
  rewrite (OffsetToNdIndex_digits T Hb dims Hpos Hfit offset buf HN Hoff Hbuf).
  assert (Hback : NdIndexToOffset_n T (length dims)
            (IndexToOffsetWithStrideCalculator_ctor (length dims) dims
               (row_major_strides dims)) (digits dims offset) (length dims) = offset).
  { rewrite NdIndexToOffset_n_row_major;
      rewrite ?digits_recombine by assumption;
      [reflexivity | exact Hb | apply length_digits | lia]. }
  split; [exact Hback|].
  rewrite <- NdIndexToOffset_agree_unit_stride; [exact Hback | exact Hb | exact HN | |].
  - rewrite stride_ctor by apply length_row_major_strides.
    rewrite get_row_major_strides by lia.
    replace (S (length dims - 1)) with (length dims) by lia.
    by rewrite drop_all.
  - destruct (lookup_lt_is_Some_2 (digits dims offset) (length dims - 1)) as [x Hx];
      [rewrite length_digits; lia|].
    unfold get. rewrite (nth_lookup_Some _ _ 0 x Hx).
    pose proof (Forall_lookup_1 _ _ _ _ (digits_le dims offset Hpos ltac:(lia)) Hx) as Hle.
    simpl in Hle. apply representable_nonneg; [exact Hb | lia].
Qed.

Lemma offset_index_offset_witness :
  let to_offset := IndexToOffsetWithStrideCalculator_ctor 3 [2; 3; 4] (row_major_strides [2; 3; 4]) in
  let to_index := OffsetToIndexWithStrideCalculator_ctor int32_t 3 [2; 3; 4] in
  NdIndexToOffset_n int32_t 3 to_offset (OffsetToNdIndex int32_t 3 to_index 17 [0; 0; 0]) 3 = 17
  /\ NdIndexToOffset int32_t 3 to_offset (OffsetToNdIndex int32_t 3 to_index 17 [0; 0; 0]) = 17.
Proof.
  apply (offset_index_offset int32_t [2; 3; 4] 17 [0; 0; 0]).
  - reflexivity.
  - simpl. lia.
  - repeat constructor.
  - vm_compute. discriminate.
  - vm_compute. split; [discriminate | reflexivity].
  - reflexivity.
Defined.

(** *** A calculator of capacity [N] used for fewer dimensions *)

Section Capacity.
Variable T : IntType.
Hypothesis Hbits : 0 < bits T.
Variable N : nat.
Variable dims : list Z.
Hypothesis Hpos : Forall (fun d => 0 < d) dims.
Hypothesis Hfit : product dims <= max_val T.
Hypothesis Hn1 : (1 <= length dims)%nat.
Hypothesis HnN : (length dims <= N)%nat.

Lemma InitFastIntegerMath_helper_n (mh0 : list FastIntegerMath) (j : nat) :
  length mh0 = N -> (j < N)%nat ->
  helper (InitFastIntegerMath T N dims (length dims) mh0) j
  = mkFastIntegerMath (product (drop (S j) dims)).
Proof.
  intros Hmh Hj. unfold InitFastIntegerMath.
  set (n := length dims) in *.
  (* the first loop: cells n-1 .. N-1 *)
  pose proof (for_up_invariant
                (fun i st => length (fst st) = N /\ length (snd st) = N
                   /\ forall k, (n - 1 <= k < i)%nat ->
                        nth k (fst st) 0 = 1
                        /\ helper (snd st) k = mkFastIntegerMath 1)
                (fun i st => (<[i := 1]> (fst st), <[i := mkFastIntegerMath 1]> (snd st)))
                (n - 1) (N - (n - 1)) (replicate N 0, mh0)) as Hfirst.
  destruct Hfirst as (Hl1 & Hl2 & Hones).
  { simpl. split; [apply length_replicate|]. split; [exact Hmh|]. intros k Hk. lia. }
  { intros i [sa mh] Hi (Ha & Hb & Hc). simpl in *.
    split; [by rewrite length_insert|]. split; [by rewrite length_insert|].
    intros k Hk. unfold helper. destruct (decide (i = k)) as [<-|Hne].
    - rewrite !nth_insert_eq by lia. split; reflexivity.
    - rewrite !nth_insert_ne by exact Hne. apply Hc. lia. }
  replace (n - 1 + (N - (n - 1)))%nat with N in Hones by lia.
  (* the second loop: cells n-2 .. 0 *)
  match goal with
  | |- helper (snd (for_down ?k ?body ?a)) j = _ =>
      pose proof (for_down_invariant (filled_upto N dims) body k a) as Hinv
  end.
  unfold filled_upto in Hinv. destruct Hinv as (_ & _ & Hcells).
  - split; [exact Hl1|]. split; [exact Hl2|].
    intros k Hk. rewrite (drop_ge dims (S k)) by (fold n; lia).
    apply Hones. lia.
  - intros i [sa mh] Hi (Ha & Hb & Hc). simpl in *.
    split; [by rewrite length_insert|]. split; [by rewrite length_insert|].
    assert (Hv : mulT T (get dims (i + 1)) (get sa (i + 1))
                 = product (drop (S i) dims)).
    { replace (i + 1)%nat with (S i) by lia. unfold get at 2.
      rewrite (proj1 (Hc (S i) ltac:(lia))).
      apply (stride_exact T Hbits dims Hpos Hfit). fold n. lia. }
    intros k Hk. unfold helper. destruct (decide (i = k)) as [<-|Hne].
    + rewrite !nth_insert_eq by lia. rewrite Hv. split; reflexivity.
    + rewrite !nth_insert_ne by exact Hne. apply Hc. lia.
  - apply Hcells. lia.
Qed.

Lemma OffsetToNdIndex_n_loop (mh : list FastIntegerMath) :
  (forall j, (j < N)%nat ->
     helper mh j = mkFastIntegerMath (product (drop (S j) dims))) ->
  forall (cnt lo : nat) (r : Z) (idx : list Z),
    (lo + cnt = length dims - 1)%nat ->
    0 <= r < product (drop lo dims) ->
    length idx = N ->
    let st :=
      for_up lo cnt
        (fun i st =>
           let remaining := fst st in
           let idx := divides T (helper mh i) remaining in
           (subT T remaining (mul T (helper mh i) idx), <[i := idx]> (snd st)))
        (r, idx) in
    <[(length dims - 1)%nat := fst st]> (snd st)
    = take lo idx ++ digits (drop lo dims) r ++ drop (length dims) idx.
Proof.
  intros Hmh. set (n := length dims) in *.
  induction cnt as [|cnt IH]; intros lo r idx Hlo Hr Hlen.
  - simpl. assert (lo = (n - 1)%nat) as -> by lia.
    rewrite insert_take_drop by lia.
    replace (S (n - 1)) with n by lia.
    destruct (lookup_lt_is_Some_2 dims (n - 1)) as [d Hd]; [fold n; lia|].
    rewrite (drop_S dims d (n - 1) Hd).
    rewrite (drop_ge dims (S (n - 1))) by (fold n; lia).
    simpl. by rewrite Z.div_1_r.
  - cbn [for_up]. cbn zeta. cbn [fst snd].
    assert (Hlt : (lo < N)%nat) by lia.
    rewrite (Hmh lo Hlt). unfold divides, mul. cbn [operand_].
    pose proof (product_drop_le dims (S lo) Hpos) as [Hs _].
    pose proof (product_drop_le dims lo Hpos) as [_ Hle].
    destruct (digit_step T Hbits dims r (product (drop (S lo) dims)) Hs ltac:(lia))
      as [-> Hrem].
    rewrite Hrem.
    etransitivity.
    { apply (IH (S lo) (r mod product (drop (S lo) dims))
               (<[lo := r / product (drop (S lo) dims)]> idx));
        [lia | by apply Z.mod_pos_bound | by rewrite length_insert]. }
    rewrite (take_S_r _ lo (r / product (drop (S lo) dims)))
      by (apply list_lookup_insert_eq; lia).
    rewrite take_insert_ge by lia.
    rewrite drop_insert_lt by lia.
    destruct (lookup_lt_is_Some_2 dims lo) as [d Hd]; [fold n; lia|].
    rewrite (drop_S dims d lo Hd). simpl. by rewrite <- app_assoc.
Qed.

End Capacity.

(** X12. Without overflow no division by zero can happen in
    [OffsetToNdIndex]: every cell of [math_helper_], the cells past the
    dimensions in use included, holds an operand between 1 and the
    product of the extents. *)
Theorem math_helper_operands_positive (T : IntType) (N : nat) (dims : list Z) (j : nat) :
  0 < bits T ->
  (1 <= length dims <= N)%nat ->
  Forall (fun d => 0 < d) dims ->
  product dims <= max_val T ->
  (j < N)%nat ->
  let c := OffsetToIndexWithStrideCalculator_n T N dims (length dims) in
  1 <= operand_ (helper (math_helper_ c) j) <= product dims.
Proof.
  intros Hb [Hn1 HnN] Hpos Hfit Hj c. subst c.
  unfold OffsetToIndexWithStrideCalculator_n. cbn [math_helper_].
  rewrite (InitFastIntegerMath_helper_n T Hb N dims Hpos Hfit Hn1 HnN)
    by (try apply length_replicate; exact Hj).
  cbn [operand_]. pose proof (product_drop_le dims (S j) Hpos). lia.
Qed.

Lemma math_helper_operands_positive_witness :
  let c := OffsetToIndexWithStrideCalculator_n int32_t 4 [2; 3; 4] 3 in
  1 <= operand_ (helper (math_helper_ c) 3) <= product [2; 3; 4].
Proof.
  apply (math_helper_operands_positive int32_t 4 [2; 3; 4] 3).
  - reflexivity.
  - simpl. lia.
  - repeat constructor.
  - vm_compute. discriminate.
  - lia.
Defined.

(** X8. A calculator of capacity [N] constructed and used for the
    [n <= N] dimensions of [dims]: without overflow,
    [OffsetToNdIndex(offset, index, n)] writes into the first [n] cells
    an index within the extents whose row-major recombination is the
    offset, and leaves the cells from [n] on as they were. *)
Theorem OffsetToNdIndex_n_partial (T : IntType) (N : nat) (dims : list Z)
    (offset : Z) (index : list Z) :
  0 < bits T ->
  (1 <= length dims <= N)%nat ->
  Forall (fun d => 0 < d) dims ->
  product dims <= max_val T ->
  0 <= offset < product dims ->
  length index = N ->
  let n := length dims in
  let out :=
    OffsetToNdIndex_n T N (OffsetToIndexWithStrideCalculator_n T N dims n) offset index n in
  in_bounds dims (take n out)
  /\ row_major_offset dims (take n out) = offset
  /\ drop n out = drop n index
  /\ length out = N.
Proof.
  intros Hb [Hn1 HnN] Hpos Hfit Hoff Hlen n out.
  assert (Hout : out = digits dims offset ++ drop n index).
  { subst out. unfold OffsetToNdIndex_n, OffsetToIndexWithStrideCalculator_n.
    cbn [math_helper_]. rewrite (Nat.min_r N (n - 1)) by (subst n; lia).
    pose proof (OffsetToNdIndex_n_loop T Hb N dims Hpos Hfit Hn1 HnN
                  (InitFastIntegerMath T N dims n (replicate N (mkFastIntegerMath 1)))) as Hloop.
    apply (Hloop ltac:(intros j Hj;
                       apply (InitFastIntegerMath_helper_n T Hb N dims Hpos Hfit Hn1 HnN);
                       [apply length_replicate | exact Hj])
             (n - 1)%nat O offset index);
      [subst n; lia | exact Hoff | exact Hlen]. }
  rewrite Hout.
  assert (Hld : length (digits dims offset) = n) by apply length_digits.
  rewrite take_app_length' by (symmetry; exact Hld).
  rewrite drop_app_length' by (symmetry; exact Hld).
  split; [by apply digits_in_bounds|]. split; [by apply digits_recombine|].
  split; [reflexivity|].
  rewrite length_app, length_drop, Hld. subst n. lia.
Qed.

Lemma OffsetToNdIndex_n_partial_witness :
  let out :=
    OffsetToNdIndex_n int32_t 4 (OffsetToIndexWithStrideCalculator_n int32_t 4 [3; 4] 2)
      7 [9; 9; 9; 9] 2 in
  in_bounds [3; 4] (take 2 out)
  /\ row_major_offset [3; 4] (take 2 out) = 7
  /\ drop 2 out = drop 2 [9; 9; 9; 9]
  /\ length out = 4%nat.
Proof.
  apply (OffsetToNdIndex_n_partial int32_t 4 [3; 4] 7 [9; 9; 9; 9]).
  - reflexivity.
  - simpl. lia.
  - repeat constructor.
  - vm_compute. discriminate.
  - vm_compute. split; [discriminate | reflexivity].
  - reflexivity.
Defined.

End calculator_facts.

Module LogicalObjectId_order.
Import LogicalObjectId.

Lemma memcmp_flip (a b : list byte) : memcmp b a = - memcmp a b.
Proof.
  revert b. induction a as [|x a IH]; intros [|y b]; simpl; try reflexivity.
  destruct (Z.ltb_spec (byte.unsigned x) (byte.unsigned y)),
           (Z.ltb_spec (byte.unsigned y) (byte.unsigned x));
    try reflexivity; try lia.
  apply IH.
Qed.

Lemma memcmp_lt_trans (a b c : list byte) :
  memcmp a b < 0 -> memcmp b c < 0 -> memcmp a c < 0.
Proof.
  revert b c. induction a as [|x a IH]; intros [|y b] [|z c]; simpl; try lia.
  destruct (Z.ltb_spec (byte.unsigned x) (byte.unsigned y)),
           (Z.ltb_spec (byte.unsigned y) (byte.unsigned x)),
           (Z.ltb_spec (byte.unsigned y) (byte.unsigned z)),
           (Z.ltb_spec (byte.unsigned z) (byte.unsigned y)),
           (Z.ltb_spec (byte.unsigned x) (byte.unsigned z)),
           (Z.ltb_spec (byte.unsigned z) (byte.unsigned x));
    try lia.
  apply IH.
Qed.

(** X9. The comparison operators generated from [memcmp] order the ids
    strictly and totally, consistently with [operator==]: no id is below
    itself, below is transitive, and of "a below b", "a equal to b" and
    "b below a" exactly one holds. *)
Theorem compare_operators_strict_total_order (a b c : t) :
  ltb a a = false
  /\ (ltb a b = true -> ltb b c = true -> ltb a c = true)
  /\ ((ltb a b = true /\ eqb a b = false /\ ltb b a = false)
      \/ (ltb a b = false /\ eqb a b = true /\ ltb b a = false)
      \/ (ltb a b = false /\ eqb a b = false /\ ltb b a = true)).
Proof.
  unfold ltb, eqb. split; [|split].
  - pose proof (memcmp_flip (bytes_of a) (bytes_of a)). apply Z.ltb_ge. lia.
  - rewrite !Z.ltb_lt. apply memcmp_lt_trans.
  - rewrite (memcmp_flip (bytes_of a) (bytes_of b)).
    destruct (Z.ltb_spec (memcmp (bytes_of a) (bytes_of b)) 0),
             (Z.eqb_spec (memcmp (bytes_of a) (bytes_of b)) 0),
             (Z.ltb_spec (- memcmp (bytes_of a) (bytes_of b)) 0);
      try lia; auto.
Qed.

End LogicalObjectId_order.

Module stream_init_facts.
Import vm vm_facts.

Section InitFrame.
Context {DeviceCtx Operands StreamTypePtr : Type}.
Variable vtable : StreamTypePtr -> StreamType DeviceCtx Operands StreamTypePtr.
Variable GetStreamType : StreamRole -> DeviceType -> Maybe StreamTypePtr.

(** X10. What a successful [__Init__] writes.  The stream it is called
    on ends up with the given thread context, device handle and role and
    with the resolved stream type; every other stream of the heap keeps
    all its members, up to the device context a backend may touch; and
    when the resolved stream type is the device helper the heap differs
    from the one before in the members of that one stream only, whose
    device context is the one it had. *)
Theorem Init_writes_this_stream (devices : DeviceTable) (this : StreamPtr)
    (thread_ctx : ThreadCtxPtr) (device : Symbol) (role : StreamRole)
    (h h1 : Heap DeviceCtx StreamTypePtr) (s : Stream DeviceCtx StreamTypePtr)
    (st : StreamTypePtr) :
  h !! this = Some s ->
  GetStreamType role (enum_type (devices device)) = Ok st ->
  writes_only_device_ctx (vtable st) ->
  __Init__ vtable GetStreamType devices this thread_ctx device role h = Returned h1 ->
  (exists s1, h1 !! this = Some s1
              /\ thread_ctx_ s1 = Some thread_ctx
              /\ device_ s1 = device
              /\ stream_role_ s1 = role
              /\ stream_type_ s1 = Some st)
  /\ (forall other, other <> this ->
        forget_device_ctx <$> (h1 !! other) = forget_device_ctx <$> (h !! other))
  /\ (vtable st = DeviceHelperStreamType ->
      h1 = <[this := bound s thread_ctx device role st]> h
      /\ device_ctx_ <$> (h1 !! this) = Some (device_ctx_ s)
      /\ forall other, other <> this -> h1 !! other = h !! other).
Proof.
  intros Hs Hreg Hframe Hinit.
  rewrite (Init_registered vtable GetStreamType devices this thread_ctx device role
             h s st Hs Hreg) in Hinit.
  injection Hinit as <-. split; [|split].
  - destruct (frame_lookup (vtable st) this this
                (<[this := bound s thread_ctx device role st]> h) this
                (bound s thread_ctx device role st) Hframe)
      as (s1 & Hs1 & Hsame); [apply lookup_insert_eq|].
    apply forget_device_ctx_eq in Hsame as (Htc & Hdev & Hrole & Hty).
    exists s1. split; [exact Hs1|]. rewrite Htc, Hdev, Hrole, Hty. repeat split.
  - intros other Hother. rewrite Hframe.
    by rewrite lookup_insert_ne by congruence.
  - intros Hhelper. rewrite Hhelper. simpl.
    split; [reflexivity|]. split; [by rewrite lookup_insert_eq|].
    intros other Hother. by rewrite lookup_insert_ne by congruence.
Qed.

End InitFrame.

Lemma Init_writes_this_stream_witness :
  (exists s1, <[1%N := bound blank_stream 0%N 3%N 0 tt]> two_streams !! 1%N = Some s1
              /\ thread_ctx_ s1 = Some 0%N
              /\ device_ s1 = 3%N
              /\ stream_role_ s1 = 0
              /\ stream_type_ s1 = Some tt)
  /\ <[1%N := bound blank_stream 0%N 3%N 0 tt]> two_streams !! 2%N = two_streams !! 2%N.
Proof.
  destruct (Init_writes_this_stream cpu_only_vtable cpu_only_registry sample_devices
              1%N 0%N 3%N 0 two_streams _ blank_stream tt
              two_streams_1 eq_refl writes_only_device_ctx_DeviceHelper eq_refl)
    as (Hthis & _ & Hhelper).
  split; [exact Hthis|].
  destruct (Hhelper eq_refl) as (_ & _ & Hothers).
  apply Hothers. discriminate.
Defined.

End stream_init_facts.
